(** * Named-query parser and query runner of [src/pipeline.py]

    A shallow embedding of [parse_named_queries], [run_queries] and of the
    [mart.customer_rollups] statement of [transform], followed by the
    properties of the specification that concern them.

    Python values are modelled as follows.
    - A [str] is the list of its Unicode code points ([pystr]).
    - A [Dict[str, str]] is an association list in insertion order with
      pairwise distinct keys ([pydict]); assignment to an existing key
      replaces the value in place, assignment to a new key appends.
    - An exception is the [Raise] constructor of [result].
    - A SQL [INTEGER] or [TIMESTAMP] is an integer and a [DOUBLE] is the
      rational it denotes; [NULL]s and rounding are outside the model. *)

From Stdlib Require Import String Ascii.
From Stdlib Require Import List NArith ZArith QArith Bool Lia.
From Stdlib Require Import Permutation Sorted FinFun.
Import ListNotations.

Local Open Scope N_scope.
Local Open Scope list_scope.

(* ================================================================== *)
(** ** Python strings *)

Module PyStr.

(** A code point. *)
Definition char : Type := N.

(** A Python [str]. *)
Definition pystr : Type := list char.

(** An ASCII literal as a Python string. *)
Definition py (s : string) : pystr :=
  map N_of_ascii (list_ascii_of_string s).

(** The line terminator produced by text-mode reading. *)
Definition LF : char := 10.
Definition CR : char := 13.
Definition colon : char := 58.

(** Equality of strings, Python's [==] on [str]. *)
Fixpoint str_eqb (a b : pystr) : bool :=
  match a, b with
  | [], [] => true
  | x :: a', y :: b' => (x =? y) && str_eqb a' b'
  | _, _ => false
  end.

(** Python's [<=] on [str]: lexicographic on code points. *)
Fixpoint str_leb (a b : pystr) : bool :=
  match a, b with
  | [], _ => true
  | _ :: _, [] => false
  | x :: a', y :: b' =>
      if x <? y then true else if x =? y then str_leb a' b' else false
  end.

(** [c.isspace()] for a single code point: the characters [str.strip()]
    removes when called without argument. *)
Definition isspace (c : char) : bool :=
  ((9 <=? c) && (c <=? 13)) || ((28 <=? c) && (c <=? 32))
  || (c =? 133) || (c =? 160) || (c =? 5760)
  || ((8192 <=? c) && (c <=? 8202))
  || (c =? 8232) || (c =? 8233) || (c =? 8239) || (c =? 8287)
  || (c =? 12288).

(** [s.lstrip()]. *)
Fixpoint lstrip (s : pystr) : pystr :=
  match s with
  | [] => []
  | c :: s' => if isspace c then lstrip s' else s
  end.

(** [s.rstrip()]. *)
Definition rstrip (s : pystr) : pystr := rev (lstrip (rev s)).

(** [s.strip()]. *)
Definition strip (s : pystr) : pystr := rstrip (lstrip s).

(** [s.startswith(p)]. *)
Fixpoint startswith (p s : pystr) : bool :=
  match p, s with
  | [], _ => true
  | _ :: _, [] => false
  | x :: p', y :: s' => (x =? y) && startswith p' s'
  end.

(** [s.split(sep, 1)] for a one-character separator: [[s]] when [sep] does
    not occur, otherwise the text before and the text after its first
    occurrence. *)
Fixpoint split1 (sep : char) (s : pystr) : list pystr :=
  match s with
  | [] => [[]]
  | c :: s' =>
      if c =? sep then [[]; s']
      else match split1 sep s' with
           | before :: others => (c :: before) :: others
           | [] => [[c]]
           end
  end.

(** ["".join(parts)]. *)
Definition join_empty (parts : list pystr) : pystr := concat parts.

(** [sep.join(parts)]. *)
Fixpoint join (sep : pystr) (parts : list pystr) : pystr :=
  match parts with
  | [] => []
  | [p] => p
  | p :: rest => p ++ sep ++ join sep rest
  end.

(** [sorted(names)] on strings, by its result: the stable ascending
    arrangement for [<=], computed here by insertion. *)
Fixpoint insert_sorted (x : pystr) (l : list pystr) : list pystr :=
  match l with
  | [] => [x]
  | y :: l' => if str_leb x y then x :: l else y :: insert_sorted x l'
  end.

Fixpoint sorted (l : list pystr) : list pystr :=
  match l with
  | [] => []
  | x :: l' => insert_sorted x (sorted l')
  end.

(** Truth value of an [Optional[str]]: neither [None] nor [""]. *)
Definition truthy (s : option pystr) : bool :=
  match s with
  | Some (_ :: _) => true
  | _ => false
  end.

(** [needle in hay] on strings. *)
Fixpoint contains (needle hay : pystr) : bool :=
  startswith needle hay ||
  match hay with
  | [] => false
  | _ :: hay' => contains needle hay'
  end.

(** Universal-newline translation of text-mode [open] (the default
    [newline=None]): ["\r\n"] and a lone ["\r"] are read as ["\n"]. *)
Fixpoint universal_newlines (s : pystr) : pystr :=
  match s with
  | [] => []
  | c :: s' =>
      if c =? CR then
        match s' with
        | c' :: s'' =>
            if c' =? LF then LF :: universal_newlines s''
            else LF :: universal_newlines s'
        | [] => [LF]
        end
      else c :: universal_newlines s'
  end.

(** Lines of a translated text, each with its terminator; [cur] is the
    line being read. *)
Fixpoint lines_from (cur : pystr) (s : pystr) : list pystr :=
  match s with
  | [] => match cur with [] => [] | _ :: _ => [cur] end
  | c :: s' =>
      if c =? LF then (cur ++ [c]) :: lines_from [] s'
      else lines_from (cur ++ [c]) s'
  end.

(** [for line in f]: the lines of a file opened in text mode, given its
    decoded content. *)
Definition file_lines (content : pystr) : list pystr :=
  lines_from [] (universal_newlines content).

(** The text of a file whose lines are the given ASCII literals, each
    terminated by a line feed. *)
Definition text (ls : list string) : pystr :=
  concat (map (fun l => py l ++ [LF]) ls).

(** One line given as an ASCII literal, with its line feed. *)
Definition line (l : string) : pystr := py l ++ [LF].

End PyStr.
Import PyStr.

(* ================================================================== *)
(** ** Python dictionaries keyed by strings *)

Module PyDict.

Definition pydict : Type := list (pystr * pystr).

(** [d.get(k)]. *)
Fixpoint lookup (k : pystr) (d : pydict) : option pystr :=
  match d with
  | [] => None
  | (k', v) :: d' => if str_eqb k' k then Some v else lookup k d'
  end.

(** [k in d]. *)
Definition mem (k : pystr) (d : pydict) : bool :=
  match lookup k d with Some _ => true | None => false end.

(** [d[k] = v]: an existing key keeps its position, a new key goes last. *)
Fixpoint dict_set (k v : pystr) (d : pydict) : pydict :=
  match d with
  | [] => [(k, v)]
  | (k', v') :: d' =>
      if str_eqb k' k then (k', v) :: d' else (k', v') :: dict_set k v d'
  end.

(** [list(d)]: the keys in iteration order. *)
Definition keys (d : pydict) : list pystr := map fst d.

(** Number of entries stored under [k]. *)
Definition entries_for (k : pystr) (d : pydict) : nat :=
  length (filter (fun e => str_eqb (fst e) k) d).

End PyDict.
Import PyDict.

(* ================================================================== *)
(** ** Exceptions *)

Inductive result (E A : Type) : Type :=
| Ok (a : A)
| Raise (e : E).
Arguments Ok {E A} a.
Arguments Raise {E A} e.

Definition bind {E A B} (r : result E A) (k : A -> result E B) : result E B :=
  match r with
  | Ok a => k a
  | Raise e => Raise e
  end.

Notation "x <- r ;; k" := (bind r (fun x => k))
  (at level 61, r at next level, right associativity).

(* ================================================================== *)
(** ** [parse_named_queries] *)

Module Parser.

(** The only exception the loop body can raise: [line.split(":", 1)[1]] on
    a list of length one. *)
Inductive parse_error : Type := IndexError.

(** The local variables of [parse_named_queries]. *)
Record locals : Type := mkLocals {
  queries : pydict;
  current_name : option pystr;
  buffer : list pystr
}.

(** State on entry to the loop (lines 146-148). *)
Definition initial : locals :=
  {| queries := []; current_name := None; buffer := [] |}.

Definition marker : pystr := py "-- name:".

(** The test of line 152. *)
Definition is_directive (line : pystr) : bool :=
  startswith marker (strip line).

(** Truth value of [buffer]: a non-empty list. *)
Definition buffer_truthy (b : list pystr) : bool :=
  match b with
  | [] => false
  | _ :: _ => true
  end.

(** The condition [current_name and buffer] of lines 153 and 160. *)
Definition should_store (st : locals) : bool :=
  truthy (current_name st) && buffer_truthy (buffer st).

(** The value assigned at lines 154 and 161. *)
Definition body_of (b : list pystr) : pystr := strip (join_empty b).

(** The assignment [queries[current_name] = "".join(buffer).strip()]. *)
Definition store (st : locals) : pydict :=
  match current_name st with
  | Some name => dict_set name (body_of (buffer st)) (queries st)
  | None => queries st
  end.

(** Lines 153-155: store and reset the buffer when the condition holds. *)
Definition flush (st : locals) : locals :=
  if should_store st then
    {| queries := store st; current_name := current_name st; buffer := [] |}
  else st.

(** [line.split(":", 1)[1].strip()], which raises [IndexError] when the
    line has no colon. *)
Definition directive_name (line : pystr) : option pystr :=
  option_map strip (nth_error (split1 colon line) 1).

(** One iteration of the loop (lines 152-158). *)
Definition step (st : locals) (line : pystr) : result parse_error locals :=
  if is_directive line then
    let st' := flush st in
    match directive_name line with
    | Some name =>
        Ok {| queries := queries st';
              current_name := Some name;
              buffer := buffer st' |}
    | None => Raise IndexError
    end
  else
    Ok {| queries := queries st;
          current_name := current_name st;
          buffer := buffer st ++ [line] |}.

(** The loop over the lines of the file. *)
Fixpoint run_lines (st : locals) (lines : list pystr)
  : result parse_error locals :=
  match lines with
  | [] => Ok st
  | line :: rest => st' <- step st line ;; run_lines st' rest
  end.

(** Lines 160-163: the last conditional assignment and the returned
    dictionary. *)
Definition finish (st : locals) : pydict :=
  if should_store st then store st else queries st.

(** The function on the lines of the file. *)
Definition parse_lines (lines : list pystr) : result parse_error pydict :=
  st <- run_lines initial lines ;; Ok (finish st).

(** [parse_named_queries(path)], given the decoded content of the file at
    [path].  A missing or unreadable file is outside the model. *)
Definition parse_named_queries (content : pystr)
  : result parse_error pydict :=
  parse_lines (file_lines content).

End Parser.
Import Parser.

(* ================================================================== *)
(** ** [run_queries] *)

Module Runner.

Section Engine.

(** The database engine is an external collaborator: a result row and an
    engine error are opaque, and [execute sql] stands for
    [conn.execute(sql).fetchall()] on the read-only connection. *)
Variable Row : Type.
Variable EngineError : Type.
Variable execute : pystr -> result EngineError (list Row).

(** What [run_queries] does to the outside world, in order. *)
Inductive event : Type :=
| Connect                       (* get_connection(read_only=True) *)
| PrintHeading (s : pystr)      (* print(heading) *)
| Execute (sql : pystr)         (* conn.execute(plan_prefix + sql) *)
| PrintPlan (rows : list Row)   (* print(result.fetchall()) *)
| PrintRow (row : Row)          (* print(row) *)
| Close.                        (* leaving the with block *)

(** How a call can end abnormally. *)
Inductive failure : Type :=
| ParseFailure (e : parse_error)
| SystemExit (msg : pystr)
| EngineFailure (e : EngineError).

(** The f-string of line 170. *)
Definition not_found_message (selected : pystr) (queries : pydict) : pystr :=
  py "Query '" ++ selected ++ py "' not found. Available: "
  ++ join (py ", ") (sorted (keys queries)).

(** [selected and name != selected] (line 174). *)
Definition skipped (selected : option pystr) (name : pystr) : bool :=
  match selected with
  | Some s => truthy selected && negb (str_eqb name s)
  | None => false
  end.

(** [selected and selected not in queries] (line 168). *)
Definition unknown (selected : option pystr) (queries : pydict) : bool :=
  match selected with
  | Some s => truthy selected && negb (mem s queries)
  | None => false
  end.

Definition heading (name : pystr) : pystr :=
  [LF] ++ py "-- " ++ name ++ py " --".

Definition plan_prefix (explain : bool) : pystr :=
  if explain then py "EXPLAIN ANALYZE " else [].

(** The loop of lines 173-186 over [queries.items()]: the events so far
    and how the loop ended. *)
Fixpoint run_loop (selected : option pystr) (explain : bool)
  (items : pydict) : list event * result failure unit :=
  match items with
  | [] => ([], Ok tt)
  | (name, sql) :: rest =>
      if skipped selected name then run_loop selected explain rest
      else
        let stmt := plan_prefix explain ++ sql in
        match execute stmt with
        | Raise e =>
            ([PrintHeading (heading name); Execute stmt],
             Raise (EngineFailure e))
        | Ok rows =>
            let printed :=
              if explain then [PrintPlan rows] else map PrintRow rows in
            let (later, outcome) := run_loop selected explain rest in
            ([PrintHeading (heading name); Execute stmt] ++ printed ++ later,
             outcome)
        end
  end.

(** [run_queries(selected, explain)], given the decoded content of
    [QUERIES_FILE].  Opening the connection is taken to succeed; the
    [with] block closes it however the loop ends. *)
Definition run_queries (content : pystr) (selected : option pystr)
  (explain : bool) : list event * result failure unit :=
  match parse_named_queries content with
  | Raise e => ([], Raise (ParseFailure e))
  | Ok queries =>
      if unknown selected queries then
        ([], Raise (SystemExit
                      (not_found_message
                         (match selected with Some s => s | None => [] end)
                         queries)))
      else
        let (events, outcome) := run_loop selected explain queries in
        (Connect :: events ++ [Close], outcome)
  end.

(** The statements sent to the engine, in order. *)
Definition executed (events : list event) : list pystr :=
  flat_map (fun e => match e with Execute sql => [sql] | _ => [] end) events.

(** The headings printed, in order. *)
Definition headings (events : list event) : list pystr :=
  flat_map (fun e => match e with PrintHeading h => [h] | _ => [] end) events.

End Engine.

Arguments Connect {Row}.
Arguments PrintHeading {Row} s.
Arguments Execute {Row} sql.
Arguments PrintPlan {Row} rows.
Arguments PrintRow {Row} row.
Arguments Close {Row}.
Arguments ParseFailure {EngineError} e.
Arguments SystemExit {EngineError} msg.
Arguments EngineFailure {EngineError} e.
Arguments run_loop {Row EngineError} execute selected explain items.
Arguments run_queries {Row EngineError} execute content selected explain.
Arguments executed {Row} events.
Arguments headings {Row} events.

End Runner.
Import Runner.

(* ================================================================== *)
(** ** The [mart.customer_rollups] statement of [transform] *)

Module Warehouse.

(** The columns of [mart.fact_orders] the statement reads. *)
Record fact_order : Type := mkFactOrder {
  customer_id : Z;
  order_ts : Z;
  quantity : Z;
  gross_revenue : Q
}.

(** A row of [mart.customer_rollups]. *)
Record customer_rollup : Type := mkRollup {
  rollup_customer_id : Z;
  order_count : N;
  total_revenue : Q;
  first_order_ts : Z;
  last_order_ts : Z;
  avg_ticket : Q;
  units : Z;
  revenue_rank : N
}.

(** The aggregates of one group, before the window function is applied. *)
Record group_aggregate : Type := mkAggregate {
  agg_customer_id : Z;
  agg_order_count : N;
  agg_total_revenue : Q;
  agg_first_order_ts : Z;
  agg_last_order_ts : Z;
  agg_avg_ticket : Q;
  agg_units : Z
}.

(** [SUM(gross_revenue)]. *)
Definition sum_revenue (g : list fact_order) : Q :=
  fold_left Qplus (map gross_revenue g) (0 # 1).

(** [SUM(quantity)]. *)
Definition sum_quantity (g : list fact_order) : Z :=
  fold_left Z.add (map quantity g) 0%Z.

(** [MIN(order_ts)] and [MAX(order_ts)] of a group; a group is never
    empty. *)
Definition min_ts (g : list fact_order) : Z :=
  match g with
  | [] => 0%Z
  | r :: g' => fold_left Z.min (map order_ts g') (order_ts r)
  end.

Definition max_ts (g : list fact_order) : Z :=
  match g with
  | [] => 0%Z
  | r :: g' => fold_left Z.max (map order_ts g') (order_ts r)
  end.

(** The rows of one customer. *)
Definition group_of (id : Z) (rows : list fact_order) : list fact_order :=
  filter (fun r => Z.eqb (customer_id r) id) rows.

(** The select list without the window function, for one group. *)
Definition aggregate (id : Z) (rows : list fact_order) : group_aggregate :=
  let g := group_of id rows in
  {| agg_customer_id := id;
     agg_order_count := N.of_nat (length g);
     agg_total_revenue := sum_revenue g;
     agg_first_order_ts := min_ts g;
     agg_last_order_ts := max_ts g;
     agg_avg_ticket := Qdiv (sum_revenue g) (inject_Z (Z.of_nat (length g)));
     agg_units := sum_quantity g |}.

(** [GROUP BY 1]: one aggregate row per distinct [customer_id]. *)
Definition group_by_customer (rows : list fact_order) : list group_aggregate :=
  map (fun id => aggregate id rows) (nodup Z.eq_dec (map customer_id rows)).

(** [ORDER BY SUM(gross_revenue) DESC] of the window: peers (equal
    revenue) are kept in the order of the input, one of the orders the
    engine may choose. *)
Fixpoint insert_desc (a : group_aggregate) (l : list group_aggregate)
  : list group_aggregate :=
  match l with
  | [] => [a]
  | b :: l' =>
      if Qle_bool (agg_total_revenue b) (agg_total_revenue a)
      then a :: l
      else b :: insert_desc a l'
  end.

Fixpoint order_by_revenue_desc (l : list group_aggregate)
  : list group_aggregate :=
  match l with
  | [] => []
  | a :: l' => insert_desc a (order_by_revenue_desc l')
  end.

Definition with_rank (a : group_aggregate) (k : N) : customer_rollup :=
  {| rollup_customer_id := agg_customer_id a;
     order_count := agg_order_count a;
     total_revenue := agg_total_revenue a;
     first_order_ts := agg_first_order_ts a;
     last_order_ts := agg_last_order_ts a;
     avg_ticket := agg_avg_ticket a;
     units := agg_units a;
     revenue_rank := k |}.

(** [ROW_NUMBER() OVER (...)]: the rows of the ordered window are numbered
    consecutively from [k]. *)
Fixpoint row_number (k : N) (ordered : list group_aggregate)
  : list customer_rollup :=
  match ordered with
  | [] => []
  | a :: l => with_rank a k :: row_number (k + 1) l
  end.

(** The rows of [mart.customer_rollups], listed by rank. *)
Definition customer_rollups (rows : list fact_order) : list customer_rollup :=
  row_number 1 (order_by_revenue_desc (group_by_customer rows)).

(** The ranking the specification describes, written from its words: a
    dense rank gives peers the same number and skips none.  [k] is the
    rank of the previous row and [prev] its revenue. *)
Fixpoint dense_rank_from (k : N) (prev : Q) (ordered : list group_aggregate)
  : list customer_rollup :=
  match ordered with
  | [] => []
  | a :: l =>
      let k' := if Qeq_bool (agg_total_revenue a) prev then k else k + 1 in
      with_rank a k' :: dense_rank_from k' (agg_total_revenue a) l
  end.

Definition dense_rank_spec (ordered : list group_aggregate)
  : list customer_rollup :=
  match ordered with
  | [] => []
  | a :: l => with_rank a 1 :: dense_rank_from 1 (agg_total_revenue a) l
  end.

(** Rows in window order: a later row never has a larger revenue. *)
Definition revenue_descending (a b : group_aggregate) : Prop :=
  Qle (agg_total_revenue b) (agg_total_revenue a).

End Warehouse.
Import Warehouse.

(* ================================================================== *)
(** ** Vocabulary for the statements about the parser *)

Module ParserRun.

(** A line the loop appends to the buffer. *)
Definition content_line (line : pystr) : Prop := is_directive line = false.

(** A line made of whitespace only, including the empty last line. *)
Definition blank_line (line : pystr) : Prop := strip line = [].

(** A directive line carrying the name [n]. *)
Definition names (n : pystr) (line : pystr) : Prop :=
  is_directive line = true /\ directive_name line = Some n.

(** No directive among [lines] carries the name [n]. *)
Definition never_names (n : pystr) (lines : list pystr) : Prop :=
  Forall (fun l => is_directive l = true -> directive_name l <> Some n) lines.

(** [lines] is empty or begins with a directive: whatever precedes it is
    a complete block. *)
Definition at_block_start (lines : list pystr) : Prop :=
  match lines with
  | [] => True
  | l :: _ => is_directive l = true
  end.

(** The name a directive line carries, [""] standing in for the
    exception. *)
Definition name_of (line : pystr) : pystr :=
  match directive_name line with
  | Some n => n
  | None => []
  end.

(** The locals after one iteration that raises nothing. *)
Definition next (st : locals) (line : pystr) : locals :=
  if is_directive line then
    {| queries := queries (flush st);
       current_name := Some (name_of line);
       buffer := buffer (flush st) |}
  else
    {| queries := queries st;
       current_name := current_name st;
       buffer := buffer st ++ [line] |}.

(** The locals after the loop has read [lines]. *)
Definition exec (st : locals) (lines : list pystr) : locals :=
  fold_left next lines st.

(** The lines of a file that are not directives, in order. *)
Definition content_of (lines : list pystr) : list pystr :=
  filter (fun l => negb (is_directive l)) lines.

(** [part] is a run of consecutive elements of [whole]. *)
Definition segment (part whole : list pystr) : Prop :=
  exists before after, whole = before ++ part ++ after.

(** Every stored body is the trimmed concatenation of a run of
    consecutive content lines among [seen], and the buffer is the run
    that ends them. *)
Definition from_content (seen : list pystr) (st : locals) : Prop :=
  (exists before, content_of seen = before ++ buffer st) /\
  (forall e, In e (queries st) ->
     exists buf, segment buf (content_of seen) /\ snd e = body_of buf).

(** The keys are distinct and none is the empty string. *)
Definition well_keyed (d : pydict) : Prop :=
  NoDup (keys d) /\ ~ In [] (keys d).

End ParserRun.
Import ParserRun.

(* ================================================================== *)
(** ** Vocabulary for further statements *)

Module QueryFile.

(** [s] does not begin with a whitespace character. *)
Definition clean_start (s : pystr) : Prop :=
  match s with
  | [] => True
  | c :: _ => isspace c = false
  end.

(** [s] neither begins nor ends with a whitespace character. *)
Definition trimmed (s : pystr) : Prop :=
  clean_start s /\ clean_start (rev s).

(** [s] is made of whitespace characters only. *)
Definition whitespace (s : pystr) : Prop := forallb isspace s = true.

(** A directive line together with the lines up to the next directive. *)
Definition block : Type := (pystr * list pystr)%type.

Definition block_lines (b : block) : list pystr := fst b :: snd b.

(** The entry a block is expected to produce. *)
Definition block_entry (b : block) : pystr * pystr :=
  (name_of (fst b), body_of (snd b)).

(** A directive with a non-empty name followed by at least one line, none
    of them a directive. *)
Definition well_formed_block (b : block) : Prop :=
  is_directive (fst b) = true /\ name_of (fst b) <> [] /\
  snd b <> [] /\ Forall content_line (snd b).

(** Number of directive lines. *)
Definition directive_count (lines : list pystr) : nat :=
  length (filter is_directive lines).

(** A line without its terminator: no carriage return, no line feed. *)
Definition no_newline (l : pystr) : Prop := ~ In CR l /\ ~ In LF l.

(** The text of a file whose lines end with a line feed, and with a
    carriage return followed by a line feed. *)
Definition lf_text (ls : list pystr) : pystr :=
  concat (map (fun l => l ++ [LF]) ls).

Definition crlf_text (ls : list pystr) : pystr :=
  concat (map (fun l => l ++ [CR; LF]) ls).

(** The name [n] is carried by a directive line among [seen]. *)
Definition named_by (seen : list pystr) (n : pystr) : Prop :=
  exists l, In l seen /\ names n l.

(** The names in play all come from directive lines already read. *)
Definition keys_from (seen : list pystr) (st : locals) : Prop :=
  (forall k, In k (keys (queries st)) -> named_by seen k) /\
  (forall n, current_name st = Some n -> named_by seen n).

(** The names in play: the keys stored and the current name, if any. *)
Definition names_in_play (st : locals) : nat :=
  length (queries st)
  + match current_name st with Some _ => 1 | None => 0 end.

End QueryFile.
Import QueryFile.

Module Selection.

(** The entries the loop of [run_queries] does not skip. *)
Definition selected_items (selected : option pystr) (q : pydict) : pydict :=
  filter (fun e => negb (skipped selected (fst e))) q.

(** The statement sent to the engine for an entry. *)
Definition statement (explain : bool) (e : pystr * pystr) : pystr :=
  plan_prefix explain ++ snd e.

(** The event of opening or closing the connection. *)
Definition is_bracket {Row : Type} (e : event Row) : bool :=
  match e with
  | Connect | Close => true
  | _ => false
  end.

(** The statement of an entry got an answer from the engine. *)
Definition answered {Row EngineError : Type}
  (execute : pystr -> result EngineError (list Row))
  (explain : bool) (d : pystr * pystr) : Prop :=
  exists rows, execute (statement explain d) = Ok rows.

(** How the loop ended, in terms of the entries it reached ([done]) and
    those it did not ([later]): normally, after every selected entry got
    its answer, or at the first statement on which the engine raised. *)
Definition loop_outcome {Row EngineError : Type}
  (execute : pystr -> result EngineError (list Row))
  (explain : bool) (done later : pydict)
  (outcome : result (failure EngineError) unit) : Prop :=
  match outcome with
  | Ok _ => later = [] /\ Forall (answered execute explain) done
  | Raise f =>
      exists before d e,
        done = before ++ [d] /\ Forall (answered execute explain) before /\
        execute (statement explain d) = Raise e /\ f = EngineFailure e
  end.

(** How an answer is printed: as one plan with [explain] (line 183), one
    row at a time otherwise (lines 185-186). *)
Definition printed {Row : Type} (explain : bool) (rows : list Row)
  : list (event Row) :=
  if explain then [PrintPlan rows] else map PrintRow rows.

(** The events of one entry the loop reaches: its heading, its statement
    sent to the engine and, when the engine answers, the answer printed. *)
Definition entry_events {Row EngineError : Type}
  (execute : pystr -> result EngineError (list Row))
  (explain : bool) (d : pystr * pystr) : list (event Row) :=
  [PrintHeading (heading (fst d)); Execute (statement explain d)]
  ++ match execute (statement explain d) with
     | Ok rows => printed explain rows
     | Raise _ => []
     end.

End Selection.
Import Selection.

Module Reconcile.

(** Column totals of [mart.customer_rollups]. *)
Definition total_order_count (rs : list customer_rollup) : N :=
  fold_right N.add 0 (map order_count rs).

Definition total_units (rs : list customer_rollup) : Z :=
  fold_right Z.add 0%Z (map units rs).

End Reconcile.
Import Reconcile.

(* ================================================================== *)
(** ** The model on small inputs *)

Example strip_unicode_whitespace :
  strip ([160; 9] ++ py "a b" ++ [8232; 10]) = py "a b".
Proof. reflexivity. Qed.

Example split1_first_colon :
  split1 colon (py "-- name: a:b") = [py "-- name"; py " a:b"] /\
  split1 colon (py "no colon") = [py "no colon"].
Proof. split; reflexivity. Qed.

Example file_lines_newlines :
  file_lines (py "a" ++ [CR; LF] ++ py "b" ++ [CR] ++ py "c" ++ [LF]
              ++ py "d")
  = [line "a"; line "b"; line "c"; py "d"].
Proof. reflexivity. Qed.

Example dict_set_keeps_position :
  dict_set (py "a") (py "3") [(py "a", py "1"); (py "b", py "2")]
  = [(py "a", py "3"); (py "b", py "2")] /\
  dict_set (py "c") (py "3") [(py "a", py "1"); (py "b", py "2")]
  = [(py "a", py "1"); (py "b", py "2"); (py "c", py "3")].
Proof. split; reflexivity. Qed.

Example parse_indented_directive_without_final_newline :
  parse_named_queries
    (py "   -- name:   top  " ++ [CR; LF] ++ py "SELECT 1" ++ [LF]
     ++ py "FROM t;")
  = Ok [(py "top", py "SELECT 1" ++ [LF] ++ py "FROM t;")].
Proof. vm_compute. reflexivity. Qed.

Example sorted_is_by_code_point :
  sorted [py "b"; py "a"; py "B"; py "ab"] = [py "B"; py "a"; py "ab"; py "b"].
Proof. reflexivity. Qed.

(* ================================================================== *)
(** ** Facts about strings *)

Section StringFacts.

Lemma str_eqb_refl (a : pystr) : str_eqb a a = true.
Proof.
  induction a as [|x a IH]; simpl; [reflexivity|].
  now rewrite N.eqb_refl.
Qed.

Lemma str_eqb_eq (a b : pystr) : str_eqb a b = true <-> a = b.
Proof.
  split; [|intros ->; apply str_eqb_refl].
  revert b; induction a as [|x a IH]; intros [|y b]; simpl; try congruence.
  intros H. apply andb_true_iff in H as [Hx Hr].
  apply N.eqb_eq in Hx. f_equal; auto.
Qed.

Lemma str_eqb_neq (a b : pystr) : str_eqb a b = false <-> a <> b.
Proof.
  split.
  - intros H E. apply str_eqb_eq in E. congruence.
  - intros H. destruct (str_eqb a b) eqn:E; [|reflexivity].
    apply str_eqb_eq in E. contradiction.
Qed.

Lemma str_eqb_sym (a b : pystr) : str_eqb a b = str_eqb b a.
Proof.
  destruct (str_eqb a b) eqn:E.
  - apply str_eqb_eq in E. subst. symmetry. apply str_eqb_refl.
  - symmetry. apply str_eqb_neq. apply str_eqb_neq in E. congruence.
Qed.

Lemma lstrip_incl (s : pystr) (c : char) : In c (lstrip s) -> In c s.
Proof.
  induction s as [|x s IH]; simpl; [tauto|].
  destruct (isspace x); simpl; auto.
Qed.

Lemma strip_incl (s : pystr) (c : char) : In c (strip s) -> In c s.
Proof.
  unfold strip, rstrip. intros H.
  apply lstrip_incl. apply in_rev. apply lstrip_incl. now apply in_rev.
Qed.

Lemma startswith_app (p s : pystr) :
  startswith p s = true -> exists t, s = p ++ t.
Proof.
  revert s; induction p as [|x p IH]; intros s H.
  - now exists s.
  - destruct s as [|y s]; simpl in H; [discriminate|].
    apply andb_true_iff in H as [Hx Hr]. apply N.eqb_eq in Hx. subst y.
    destruct (IH _ Hr) as [t ->]. now exists t.
Qed.

(** A string with a colon splits at its first colon. *)
Lemma split1_found (sep : char) (s : pystr) :
  In sep s ->
  exists before after,
    s = before ++ sep :: after /\ ~ In sep before /\
    split1 sep s = [before; after].
Proof.
  induction s as [|c s IH]; simpl; [tauto|].
  intros H. destruct (c =? sep) eqn:E.
  - apply N.eqb_eq in E. subst c. exists [], s. simpl. tauto.
  - apply N.eqb_neq in E.
    destruct H as [H|H]; [contradiction|].
    destruct (IH H) as (b & a & Hs & Hn & Hsp).
    exists (c :: b), a. rewrite Hsp. subst s. simpl.
    repeat split; auto. intros [?|?]; auto.
Qed.

(** Stripping leaves nothing exactly when every character is whitespace. *)
Lemma lstrip_nil (s : pystr) : lstrip s = [] <-> forallb isspace s = true.
Proof.
  induction s as [|c s IH]; simpl; [tauto|].
  destruct (isspace c); simpl; [exact IH|]. split; discriminate.
Qed.

Lemma lstrip_head (s : pystr) :
  match lstrip s with [] => True | c :: _ => isspace c = false end.
Proof.
  induction s as [|c s IH]; simpl; [exact I|].
  destruct (isspace c) eqn:E; [exact IH|exact E].
Qed.

Lemma forallb_rev {A} (f : A -> bool) (l : list A) :
  forallb f (rev l) = forallb f l.
Proof.
  induction l as [|x l IH]; simpl; [reflexivity|].
  rewrite forallb_app, IH. simpl. rewrite andb_true_r. apply andb_comm.
Qed.

Lemma strip_nil (s : pystr) : strip s = [] <-> forallb isspace s = true.
Proof.
  unfold strip, rstrip. split.
  - intros H.
    assert (H1 : lstrip (rev (lstrip s)) = []).
    { rewrite <- (rev_involutive (lstrip (rev (lstrip s)))), H. reflexivity. }
    apply lstrip_nil in H1. rewrite forallb_rev in H1.
    pose proof (lstrip_head s) as Hh.
    destruct (lstrip s) as [|c t] eqn:E.
    + now apply lstrip_nil.
    + simpl in H1. rewrite Hh in H1. discriminate.
  - intros H. apply lstrip_nil in H. rewrite H. reflexivity.
Qed.

Lemma strip_concat_blank (ls : list pystr) :
  Forall (fun l => strip l = []) ls -> strip (concat ls) = [].
Proof.
  intros H. apply strip_nil.
  induction H as [|l ls Hl _ IH]; simpl; [reflexivity|].
  rewrite forallb_app, IH. apply strip_nil in Hl. now rewrite Hl.
Qed.

End StringFacts.

(* ================================================================== *)
(** ** Facts about dictionaries *)

Section DictFacts.

Lemma lookup_dict_set_same (k v : pystr) (d : pydict) :
  lookup k (dict_set k v d) = Some v.
Proof.
  induction d as [|[k' v'] d IH]; simpl.
  - now rewrite str_eqb_refl.
  - destruct (str_eqb k' k) eqn:E; simpl; rewrite E; auto.
Qed.

Lemma lookup_dict_set_other (k k' v : pystr) (d : pydict) :
  k <> k' -> lookup k' (dict_set k v d) = lookup k' d.
Proof.
  intros Hne. induction d as [|[k0 v0] d IH]; simpl.
  - apply str_eqb_neq in Hne. now rewrite Hne.
  - destruct (str_eqb k0 k) eqn:E; simpl.
    + apply str_eqb_eq in E. subst k0.
      apply str_eqb_neq in Hne. now rewrite Hne.
    + now rewrite IH.
Qed.

Lemma lookup_none_keys (k : pystr) (d : pydict) :
  lookup k d = None <-> ~ In k (keys d).
Proof.
  unfold keys. induction d as [|[k' v'] d IH]; simpl; [tauto|].
  destruct (str_eqb k' k) eqn:E.
  - apply str_eqb_eq in E. subst. split; [discriminate|tauto].
  - apply str_eqb_neq in E. rewrite IH. tauto.
Qed.

Lemma lookup_some_in (k v : pystr) (d : pydict) :
  lookup k d = Some v -> In (k, v) d.
Proof.
  induction d as [|[k' v'] d IH]; simpl; [discriminate|].
  destruct (str_eqb k' k) eqn:E.
  - apply str_eqb_eq in E. intros [= ->]. subst. now left.
  - auto.
Qed.

(** Assignment keeps the order of the keys: nothing moves, and a new key
    is added at the end. *)
Lemma keys_dict_set (k v : pystr) (d : pydict) :
  keys (dict_set k v d) = if mem k d then keys d else keys d ++ [k].
Proof.
  unfold mem. induction d as [|[k' v'] d IH]; simpl; [reflexivity|].
  destruct (str_eqb k' k) eqn:E; simpl; [reflexivity|].
  rewrite IH. now destruct (lookup k d).
Qed.

Lemma keys_dict_set_extends (k v : pystr) (d : pydict) :
  exists later, keys (dict_set k v d) = keys d ++ later.
Proof.
  rewrite keys_dict_set. destruct (mem k d).
  - exists []. now rewrite app_nil_r.
  - now exists [k].
Qed.

Lemma in_dict_set (k v : pystr) (d : pydict) (e : pystr * pystr) :
  In e (dict_set k v d) -> e = (k, v) \/ In e d.
Proof.
  induction d as [|[k' v'] d IH]; simpl.
  - intros [<-|[]]. now left.
  - destruct (str_eqb k' k) eqn:E; simpl.
    + apply str_eqb_eq in E. subst. intros [<-|H]; auto.
    + intros [<-|H]; auto. destruct (IH H); auto.
Qed.

Lemma NoDup_keys_dict_set (k v : pystr) (d : pydict) :
  NoDup (keys d) -> NoDup (keys (dict_set k v d)).
Proof.
  intros H. rewrite keys_dict_set. unfold mem.
  destruct (lookup k d) eqn:E; [exact H|].
  apply lookup_none_keys in E.
  apply Permutation_NoDup with (l := k :: keys d).
  - apply Permutation_cons_append.
  - now constructor.
Qed.

Lemma entries_for_absent (k : pystr) (d : pydict) :
  ~ In k (keys d) -> entries_for k d = 0%nat.
Proof.
  unfold entries_for. induction d as [|[k' v'] d IH]; simpl; [reflexivity|].
  intros H. destruct (str_eqb k' k) eqn:E.
  - apply str_eqb_eq in E. subst. tauto.
  - apply IH. tauto.
Qed.

Lemma entries_for_NoDup (k : pystr) (d : pydict) :
  NoDup (keys d) ->
  entries_for k d = if mem k d then 1%nat else 0%nat.
Proof.
  unfold mem. induction d as [|[k' v'] d IH]; simpl; [reflexivity|].
  intros H. inversion H as [|? ? Hn Hd]; subst.
  unfold entries_for in *. simpl.
  destruct (str_eqb k' k) eqn:E.
  - apply str_eqb_eq in E. subst. simpl.
    fold (entries_for k d). now rewrite entries_for_absent.
  - now apply IH.
Qed.

End DictFacts.

(* ================================================================== *)
(** ** Facts about the parser loop *)

Section ParserFacts.

Lemma colon_in_marker : In colon marker.
Proof. vm_compute. auto 10. Qed.

(** A directive line always has a colon, so line 156 never raises. *)
Lemma directive_has_name (line : pystr) :
  is_directive line = true ->
  exists before after,
    line = before ++ colon :: after /\ ~ In colon before /\
    directive_name line = Some (strip after).
Proof.
  unfold is_directive. intros H.
  destruct (startswith_app _ _ H) as [t Ht].
  assert (Hc : In colon line).
  { apply strip_incl. rewrite Ht. apply in_or_app. left.
    exact colon_in_marker. }
  destruct (split1_found colon line Hc) as (b & a & Hl & Hn & Hs).
  exists b, a. repeat split; auto.
  unfold directive_name. rewrite Hs. reflexivity.
Qed.

Lemma directive_name_of (line : pystr) :
  is_directive line = true -> directive_name line = Some (name_of line).
Proof.
  intros H. destruct (directive_has_name line H) as (b & a & _ & _ & Hd).
  unfold name_of. now rewrite Hd.
Qed.

Lemma step_next (st : locals) (line : pystr) :
  step st line = Ok (next st line).
Proof.
  unfold step, next. destruct (is_directive line) eqn:E; [|reflexivity].
  now rewrite (directive_name_of line E).
Qed.

Lemma run_lines_exec (lines : list pystr) (st : locals) :
  run_lines st lines = Ok (exec st lines).
Proof.
  revert st. induction lines as [|l ls IH]; intros st; simpl; [reflexivity|].
  rewrite step_next. simpl. apply IH.
Qed.

Lemma parse_lines_exec (lines : list pystr) :
  parse_lines lines = Ok (finish (exec initial lines)).
Proof. unfold parse_lines. now rewrite run_lines_exec. Qed.

Lemma exec_app (st : locals) (a b : list pystr) :
  exec st (a ++ b) = exec (exec st a) b.
Proof. apply fold_left_app. Qed.

Lemma exec_cons (st : locals) (l : pystr) (ls : list pystr) :
  exec st (l :: ls) = exec (next st l) ls.
Proof. reflexivity. Qed.

Lemma next_content (st : locals) (line : pystr) :
  content_line line ->
  next st line =
  {| queries := queries st; current_name := current_name st;
     buffer := buffer st ++ [line] |}.
Proof. unfold content_line, next. now intros ->. Qed.

Lemma next_directive (st : locals) (line n : pystr) :
  names n line ->
  next st line =
  {| queries := queries (flush st); current_name := Some n;
     buffer := buffer (flush st) |}.
Proof.
  intros [Hd Hn]. unfold next, name_of. now rewrite Hd, Hn.
Qed.

(** Content lines only grow the buffer. *)
Lemma exec_content (body : list pystr) (st : locals) :
  Forall content_line body ->
  exec st body =
  {| queries := queries st; current_name := current_name st;
     buffer := buffer st ++ body |}.
Proof.
  revert st. induction body as [|l ls IH]; intros st H.
  - simpl. rewrite app_nil_r. now destruct st.
  - inversion H as [|? ? Hl Hls]; subst.
    rewrite exec_cons, next_content by exact Hl.
    rewrite IH by exact Hls. simpl. now rewrite <- app_assoc.
Qed.

Lemma blank_is_content (line : pystr) : blank_line line -> content_line line.
Proof.
  unfold blank_line, content_line, is_directive. now intros ->.
Qed.

Lemma flush_stores (st : locals) (n : pystr) :
  current_name st = Some n -> n <> [] -> buffer st <> [] ->
  flush st =
  {| queries := dict_set n (body_of (buffer st)) (queries st);
     current_name := Some n; buffer := [] |}.
Proof.
  intros Hn Hne Hb. unfold flush, should_store, store. rewrite Hn.
  destruct n; [contradiction|]. destruct (buffer st); [contradiction|].
  reflexivity.
Qed.

Lemma finish_stores (st : locals) (n : pystr) :
  current_name st = Some n -> n <> [] -> buffer st <> [] ->
  finish st = dict_set n (body_of (buffer st)) (queries st).
Proof.
  intros Hn Hne Hb. unfold finish, should_store, store. rewrite Hn.
  destruct n; [contradiction|]. destruct (buffer st); [contradiction|].
  reflexivity.
Qed.

Lemma flush_empty_buffer (st : locals) : buffer st = [] -> flush st = st.
Proof.
  intros H. unfold flush, should_store. rewrite H.
  now rewrite andb_false_r.
Qed.

Lemma finish_empty_buffer (st : locals) :
  buffer st = [] -> finish st = queries st.
Proof.
  intros H. unfold finish, should_store. rewrite H.
  now rewrite andb_false_r.
Qed.

Lemma flush_falsy_name (st : locals) :
  truthy (current_name st) = false -> flush st = st.
Proof. intros H. unfold flush, should_store. now rewrite H. Qed.

Lemma finish_falsy_name (st : locals) :
  truthy (current_name st) = false -> finish st = queries st.
Proof. intros H. unfold finish, should_store. now rewrite H. Qed.

Lemma finish_flush (st : locals) : finish st = queries (flush st).
Proof. unfold finish, flush. now destruct (should_store st). Qed.

(** What [flush] can do to the dictionary. *)
Lemma flush_cases (st : locals) :
  flush st = st \/
  exists n, current_name st = Some n /\ n <> [] /\ buffer st <> [] /\
    flush st =
    {| queries := dict_set n (body_of (buffer st)) (queries st);
       current_name := Some n; buffer := [] |}.
Proof.
  destruct (should_store st) eqn:E.
  - right. unfold should_store in E. apply andb_true_iff in E as [E1 E2].
    destruct (current_name st) as [[|c n]|] eqn:Hn; try discriminate.
    destruct (buffer st) as [|b bs] eqn:Hb; try discriminate.
    exists (c :: n). repeat split; try congruence.
    rewrite <- Hb. apply flush_stores; congruence.
  - left. unfold flush. now rewrite E.
Qed.

End ParserFacts.

(* ================================================================== *)
(** ** Invariants of the loop *)

Section ParserInvariants.

Lemma well_keyed_dict_set (n v : pystr) (d : pydict) :
  n <> [] -> well_keyed d -> well_keyed (dict_set n v d).
Proof.
  intros Hn [Hd He]. split; [now apply NoDup_keys_dict_set|].
  rewrite keys_dict_set. destruct (mem n d); [exact He|].
  intros H. apply in_app_or in H as [H|[H|[]]]; [tauto|congruence].
Qed.

Lemma well_keyed_flush (st : locals) :
  well_keyed (queries st) -> well_keyed (queries (flush st)).
Proof.
  intros H. destruct (flush_cases st) as [->|(n & _ & Hn & _ & ->)];
    [exact H|]. simpl. now apply well_keyed_dict_set.
Qed.

Lemma well_keyed_next (st : locals) (line : pystr) :
  well_keyed (queries st) -> well_keyed (queries (next st line)).
Proof.
  intros H. unfold next. destruct (is_directive line); simpl; [|exact H].
  now apply well_keyed_flush.
Qed.

Lemma well_keyed_exec (lines : list pystr) (st : locals) :
  well_keyed (queries st) -> well_keyed (queries (exec st lines)).
Proof.
  revert st. induction lines as [|l ls IH]; intros st H; [exact H|].
  rewrite exec_cons. apply IH. now apply well_keyed_next.
Qed.

Lemma well_keyed_result (lines : list pystr) :
  well_keyed (finish (exec initial lines)).
Proof.
  rewrite finish_flush. apply well_keyed_flush, well_keyed_exec.
  split; [constructor|simpl; tauto].
Qed.

(** A flush touches only the entry of the current name. *)
Lemma lookup_flush_other (st : locals) (n : pystr) :
  current_name st <> Some n ->
  lookup n (queries (flush st)) = lookup n (queries st).
Proof.
  intros H. destruct (flush_cases st) as [->|(m & Hm & _ & _ & ->)];
    [reflexivity|]. simpl. apply lookup_dict_set_other. congruence.
Qed.

(** Lines that never name [n] leave its entry alone, once [n] is no
    longer the current name. *)
Lemma lookup_exec_other (n : pystr) (lines : list pystr) (st : locals) :
  current_name st <> Some n -> never_names n lines ->
  current_name (exec st lines) <> Some n /\
  lookup n (queries (exec st lines)) = lookup n (queries st).
Proof.
  revert st. induction lines as [|l ls IH]; intros st Hc Hn.
  - now split.
  - inversion Hn as [|? ? Hl Hls]; subst. rewrite exec_cons.
    destruct (is_directive l) eqn:E.
    + specialize (Hl eq_refl).
      assert (Hnext : names (name_of l) l)
        by (split; [exact E|now apply directive_name_of]).
      rewrite (next_directive st l _ Hnext).
      assert (Hne : Some (name_of l) <> Some n)
        by (rewrite <- (directive_name_of l E); exact Hl).
      destruct (IH {| queries := queries (flush st);
                      current_name := Some (name_of l);
                      buffer := buffer (flush st) |} Hne Hls) as [H1 H2].
      split; [exact H1|].
      rewrite H2. simpl. now apply lookup_flush_other.
    + rewrite next_content by exact E.
      destruct (IH {| queries := queries st;
                      current_name := current_name st;
                      buffer := buffer st ++ [l] |} Hc Hls) as [H1 H2].
      now split.
Qed.

Lemma lookup_result_other (n : pystr) (lines : list pystr) (st : locals) :
  current_name st <> Some n -> never_names n lines ->
  lookup n (finish (exec st lines)) = lookup n (queries st).
Proof.
  intros Hc Hn. destruct (lookup_exec_other n lines st Hc Hn) as [H1 H2].
  rewrite finish_flush, lookup_flush_other by exact H1. exact H2.
Qed.

(** The block of the current name, once complete, decides the entry of
    that name for the rest of the file, provided the name does not come
    back. *)
Lemma block_decides_entry (n : pystr) (body rest : list pystr) (st : locals) :
  current_name st = Some n -> n <> [] ->
  Forall content_line body -> buffer st ++ body <> [] ->
  at_block_start rest -> never_names n rest ->
  lookup n (finish (exec st (body ++ rest)))
  = Some (body_of (buffer st ++ body)).
Proof.
  intros Hc Hn Hb Hne Hs Hr.
  rewrite exec_app, (exec_content body st Hb).
  set (st1 := {| queries := queries st; current_name := current_name st;
                 buffer := buffer st ++ body |}).
  destruct rest as [|d rest].
  - simpl. rewrite (finish_stores st1 n) by (try exact Hc; assumption).
    apply lookup_dict_set_same.
  - simpl in Hs. inversion Hr as [|? ? Hd Hrest]; subst.
    specialize (Hd Hs). rewrite exec_cons.
    assert (Hnext : names (name_of d) d)
      by (split; [exact Hs|now apply directive_name_of]).
    rewrite (next_directive st1 d _ Hnext).
    rewrite (flush_stores st1 n) by (try exact Hc; assumption).
    rewrite lookup_result_other; simpl.
    + apply lookup_dict_set_same.
    + rewrite <- (directive_name_of d Hs). exact Hd.
    + exact Hrest.
Qed.

(** Reading more lines never reorders the names already stored: the
    keys of the result for a prefix of the file come first, in the same
    order, in the result for the whole file. *)
Lemma keys_next_extend (st : locals) (line : pystr) :
  exists later,
    keys (finish (next st line)) = keys (finish st) ++ later.
Proof.
  unfold next. destruct (is_directive line) eqn:E.
  - rewrite finish_flush.
    match goal with |- context [flush ?s] => set (st' := s) end.
    destruct (flush_cases st') as [->|(m & _ & _ & _ & ->)]; simpl.
    + exists []. now rewrite finish_flush, app_nil_r.
    + rewrite <- finish_flush. apply keys_dict_set_extends.
  - unfold finish at 1, should_store, store. simpl.
    destruct (current_name st) as [[|c m]|] eqn:Hn; simpl.
    + exists []. rewrite finish_falsy_name by (now rewrite Hn).
      now rewrite app_nil_r.
    + destruct (buffer st) as [|b bs] eqn:Hb; simpl.
      * rewrite finish_empty_buffer by exact Hb.
        apply keys_dict_set_extends.
      * exists []. rewrite app_nil_r.
        rewrite (finish_stores st (c :: m)); try congruence.
        rewrite !keys_dict_set. reflexivity.
    + exists []. rewrite finish_falsy_name by (now rewrite Hn).
      now rewrite app_nil_r.
Qed.

Lemma keys_exec_extend (lines : list pystr) (st : locals) :
  exists later,
    keys (finish (exec st lines)) = keys (finish st) ++ later.
Proof.
  revert st. induction lines as [|l ls IH]; intros st.
  - exists []. now rewrite app_nil_r.
  - rewrite exec_cons. destruct (IH (next st l)) as [a Ha].
    destruct (keys_next_extend st l) as [b Hb].
    exists (b ++ a). now rewrite Ha, Hb, app_assoc.
Qed.

End ParserInvariants.

(* ================================================================== *)
(** ** Where the stored bodies come from *)

Section Provenance.

Lemma content_of_app (a b : list pystr) :
  content_of (a ++ b) = content_of a ++ content_of b.
Proof. apply filter_app. Qed.

Lemma segment_grow (part whole more : list pystr) :
  segment part whole -> segment part (whole ++ more).
Proof.
  intros (a & c & ->). exists a, (c ++ more).
  now rewrite <- !app_assoc.
Qed.

Lemma from_content_flush (seen : list pystr) (st : locals) :
  from_content seen st -> from_content seen (flush st).
Proof.
  intros [[a Ha] Hq].
  destruct (flush_cases st) as [->|(n & _ & _ & _ & ->)];
    [split; [now exists a|exact Hq]|].
  split; simpl.
  - exists (content_of seen). now rewrite app_nil_r.
  - intros e He. apply in_dict_set in He as [->|He]; [|now apply Hq].
    exists (buffer st). split; [|reflexivity].
    exists a, []. now rewrite app_nil_r.
Qed.

Lemma content_of_snoc (seen : list pystr) (line : pystr) :
  content_of (seen ++ [line])
  = if is_directive line then content_of seen else content_of seen ++ [line].
Proof.
  rewrite content_of_app. unfold content_of at 2. simpl.
  destruct (is_directive line); simpl; [apply app_nil_r|reflexivity].
Qed.

Lemma from_content_next (seen : list pystr) (st : locals) (line : pystr) :
  from_content seen st -> from_content (seen ++ [line]) (next st line).
Proof.
  intros H. unfold next, from_content. rewrite content_of_snoc.
  destruct (is_directive line) eqn:E; simpl.
  - exact (from_content_flush seen st H).
  - destruct H as [[a Ha] Hq]. split.
    + exists a. now rewrite Ha, app_assoc.
    + intros e He. destruct (Hq e He) as (buf & Hs & Hv).
      exists buf. split; [now apply segment_grow|exact Hv].
Qed.

Lemma from_content_exec (lines seen : list pystr) (st : locals) :
  from_content seen st -> from_content (seen ++ lines) (exec st lines).
Proof.
  revert seen st. induction lines as [|l ls IH]; intros seen st H.
  - now rewrite app_nil_r.
  - rewrite exec_cons.
    replace (seen ++ l :: ls) with ((seen ++ [l]) ++ ls)
      by (now rewrite <- app_assoc).
    apply IH. now apply from_content_next.
Qed.

Lemma from_content_result (lines : list pystr) (e : pystr * pystr) :
  In e (finish (exec initial lines)) ->
  exists buf, segment buf (content_of lines) /\ snd e = body_of buf.
Proof.
  intros He. rewrite finish_flush in He.
  assert (H : from_content lines (exec initial lines)).
  { apply (from_content_exec lines [] initial). split; simpl.
    - now exists [].
    - tauto. }
  apply from_content_flush in H. destruct H as [_ Hq]. now apply Hq.
Qed.

End Provenance.

(* ================================================================== *)
(** ** Properties of [parse_named_queries] *)

(** The parser raises nothing: on every file it returns a dictionary. *)
Lemma parse_named_queries_returns (content : pystr) :
  parse_named_queries content
  = Ok (finish (exec initial (file_lines content))).
Proof. apply parse_lines_exec. Qed.

(** C5: the empty file, and more generally every file without a directive
    line, is parsed to the empty mapping. *)
Theorem no_directive_empty_mapping (content : pystr) :
  content = [] \/ Forall content_line (file_lines content) ->
  parse_named_queries content = Ok [].
Proof.
  intros H.
  assert (Hc : Forall content_line (file_lines content)).
  { destruct H as [->|H]; [constructor|exact H]. }
  rewrite parse_named_queries_returns, (exec_content _ initial Hc).
  now rewrite finish_falsy_name.
Qed.

Lemma no_directive_empty_mapping_witness :
  Forall content_line
    (file_lines (text ["SELECT 1;"; "-- a comment, not a name"; ""]%string))
  /\ parse_named_queries
       (text ["SELECT 1;"; "-- a comment, not a name"; ""]%string) = Ok [].
Proof.
  assert (H : Forall content_line
    (file_lines (text ["SELECT 1;"; "-- a comment, not a name"; ""]%string))).
  { vm_compute. repeat constructor. }
  split; [exact H|].
  apply no_directive_empty_mapping. right. exact H.
Defined.

(** C7: a line is handled as a directive exactly when its stripped text
    starts with ["-- name:"]; the name it sets is the stripped text after
    the first colon of the line; a directive line is never appended to the
    buffer, so every stored body is the trimmed concatenation of
    consecutive non-directive lines; and the two-query example of the
    specification is parsed to the mapping it gives. *)
Theorem directive_recognition :
  (forall st line,
     startswith (py "-- name:") (strip line) = true ->
     exists before after st',
       line = before ++ colon :: after /\ ~ In colon before /\
       step st line = Ok st' /\
       current_name st' = Some (strip after) /\
       (buffer st' = buffer st \/ buffer st' = [])) /\
  (forall st line,
     startswith (py "-- name:") (strip line) = false ->
     step st line =
     Ok {| queries := queries st; current_name := current_name st;
           buffer := buffer st ++ [line] |}) /\
  (forall content q name body,
     parse_named_queries content = Ok q -> In (name, body) q ->
     exists buf,
       segment buf (content_of (file_lines content)) /\
       Forall (fun l => startswith (py "-- name:") (strip l) = false) buf /\
       body = strip (join_empty buf)) /\
  parse_named_queries
    (text ["-- name: q1"; "SELECT 1;"; "-- name: q2"; "SELECT 2;"]%string)
  = Ok [(py "q1", py "SELECT 1;"); (py "q2", py "SELECT 2;")].
Proof.
  split; [|split; [|split]].
  - intros st line H.
    destruct (directive_has_name line H) as (b & a & Hl & Hn & Hd).
    exists b, a, (next st line). repeat split; auto.
    + apply step_next.
    + unfold next, name_of. fold marker in H. fold (is_directive line) in H.
      now rewrite H, Hd.
    + unfold next. fold marker in H. fold (is_directive line) in H.
      rewrite H. simpl.
      destruct (flush_cases st) as [->|(n & _ & _ & _ & ->)]; auto.
  - intros st line H. unfold step. fold marker in H.
    fold (is_directive line) in H. now rewrite H.
  - intros content q name body Hp Hin.
    rewrite parse_named_queries_returns in Hp. injection Hp as <-.
    destruct (from_content_result _ _ Hin) as (buf & Hs & Hb).
    exists buf. repeat split; auto.
    destruct Hs as (x & y & Hxy).
    assert (Hall : Forall content_line (content_of (file_lines content))).
    { apply Forall_forall. intros l Hl. apply filter_In in Hl as [_ Hl].
      unfold content_line. now destruct (is_directive l). }
    rewrite Hxy in Hall. apply Forall_app in Hall as [_ Hall].
    apply Forall_app in Hall as [Hall _]. exact Hall.
  - vm_compute. reflexivity.
Qed.

Lemma directive_recognition_witness :
  exists st',
    step initial (py "  -- name: a:b  " ++ [LF]) = Ok st' /\
    current_name st' = Some (py "a:b") /\ buffer st' = [].
Proof.
  destruct (proj1 directive_recognition initial
              (py "  -- name: a:b  " ++ [LF]) eq_refl)
    as (b & a & st' & Hl & Hn & Hs & Hc & Hb).
  exists st'. split; [exact Hs|].
  assert (E : st' = next initial (py "  -- name: a:b  " ++ [LF])).
  { rewrite step_next in Hs. now injection Hs. }
  rewrite E. split; vm_compute; reflexivity.
Defined.

(** C1 (the code departs from it): lines read before the first directive
    stay in the buffer, and the first flush stores them at the head of the
    first query's body. *)
Theorem leading_content_joins_first_query :
  parse_named_queries
    (text ["SELECT 0;"; "-- name: q1"; "SELECT 1;"]%string)
  = Ok [(py "q1", py "SELECT 0;" ++ [LF] ++ py "SELECT 1;")] /\
  contains (py "SELECT 0;") (py "SELECT 0;" ++ [LF] ++ py "SELECT 1;") = true.
Proof. split; vm_compute; reflexivity. Qed.

(** The locals after a prefix of the file that ends with a directive. *)
Lemma after_directive (pre : list pystr) (d n : pystr) (st : locals) :
  run_lines initial (pre ++ [d]) = Ok st -> names n d ->
  st = exec initial (pre ++ [d]) /\ current_name st = Some n.
Proof.
  intros Hr Hn. rewrite run_lines_exec in Hr. injection Hr as <-.
  split; [reflexivity|].
  rewrite exec_app. simpl. now rewrite (next_directive _ d n Hn).
Qed.

Lemma split_after (pre : list pystr) (d : pystr) (rest : list pystr) :
  pre ++ d :: rest = (pre ++ [d]) ++ rest.
Proof. now rewrite <- app_assoc. Qed.

Lemma entries_for_found (n v : pystr) (d : pydict) :
  well_keyed d -> lookup n d = Some v -> entries_for n d = 1%nat.
Proof.
  intros [Hd _] Hl. rewrite entries_for_NoDup by exact Hd.
  unfold mem. now rewrite Hl.
Qed.

Lemma entries_for_le_1 (n : pystr) (d : pydict) :
  well_keyed d -> (entries_for n d <= 1)%nat.
Proof.
  intros [Hd _]. rewrite entries_for_NoDup by exact Hd.
  destruct (mem n d); lia.
Qed.

(** A directive with nothing to flush leaves the entry of its name as it
    was: lines that never carry the name again do not touch it. *)
Lemma idle_directive_keeps_entry (n : pystr) (rest : list pystr)
  (st : locals) :
  current_name st = Some n -> buffer st = [] ->
  at_block_start rest -> never_names n rest ->
  lookup n (finish (exec st rest)) = lookup n (queries st).
Proof.
  intros Hc Hb Hs Hnn. destruct rest as [|d rest].
  - simpl. now rewrite finish_empty_buffer.
  - simpl in Hs. inversion Hnn as [|? ? Hd Hrest]; subst.
    rewrite exec_cons. unfold next. rewrite Hs, (flush_empty_buffer _ Hb).
    rewrite lookup_result_other; simpl; auto.
    rewrite <- (directive_name_of _ Hs). auto.
Qed.

(** C2 (as amended): the mapping never holds two entries for one name;
    when the last directive carrying a name has a non-empty name and a
    non-empty buffer at its flush, the entry of that name is the trimmed
    buffer flushed for that last occurrence, whatever earlier occurrences
    stored; and when the last occurrence has nothing to flush (no line is
    in the buffer once it has been read and none follows it before the
    next directive or the end of the file), the name keeps what was stored
    under it before, or has no entry if nothing was. *)
Theorem last_flush_wins :
  (forall content k,
     exists q, parse_named_queries content = Ok q /\
               (entries_for k q <= 1)%nat) /\
  (forall content pre d body rest st n,
     file_lines content = pre ++ d :: body ++ rest ->
     run_lines initial (pre ++ [d]) = Ok st ->
     names n d -> n <> [] ->
     Forall content_line body -> buffer st ++ body <> [] ->
     at_block_start rest -> never_names n rest ->
     exists q,
       parse_named_queries content = Ok q /\
       lookup n q = Some (strip (join_empty (buffer st ++ body))) /\
       entries_for n q = 1%nat) /\
  (forall content pre d rest st n,
     file_lines content = pre ++ d :: rest ->
     run_lines initial (pre ++ [d]) = Ok st ->
     names n d -> buffer st = [] ->
     at_block_start rest -> never_names n rest ->
     exists q,
       parse_named_queries content = Ok q /\
       lookup n q = lookup n (queries st)).
Proof.
  split; [|split].
  - intros content k. eexists. split; [apply parse_named_queries_returns|].
    apply entries_for_le_1, well_keyed_result.
  - intros content pre d body rest st n Hf Hr Hn Hne Hb Hbuf Hs Hnn.
    destruct (after_directive pre d n st Hr Hn) as [Hst Hc].
    eexists. split; [apply parse_named_queries_returns|].
    assert (Hl : lookup n (finish (exec initial (file_lines content)))
                 = Some (body_of (buffer st ++ body))).
    { rewrite Hf, split_after, exec_app, <- Hst.
      now apply block_decides_entry. }
    split; [exact Hl|].
    eapply entries_for_found; [apply well_keyed_result|exact Hl].
  - intros content pre d rest st n Hf Hr Hn Hb Hs Hnn.
    destruct (after_directive pre d n st Hr Hn) as [Hst Hc].
    eexists. split; [apply parse_named_queries_returns|].
    rewrite Hf, split_after, exec_app, <- Hst.
    now apply idle_directive_keeps_entry.
Qed.

Lemma last_flush_wins_witness :
  (exists q,
     parse_named_queries
       (text ["-- name: a"; "SELECT 1;"; "-- name: b"; "SELECT 2;";
              "-- name: a"; "SELECT 3;"]%string) = Ok q /\
     lookup (py "a") q = Some (py "SELECT 3;") /\
     entries_for (py "a") q = 1%nat) /\
  (exists q,
     parse_named_queries
       (text ["-- name: a"; "SELECT 1;"; "-- name: a"; "-- name: b";
              "SELECT 2;"]%string) = Ok q /\
     lookup (py "a") q = Some (py "SELECT 1;")).
Proof.
  split.
  - apply (proj1 (proj2 last_flush_wins)
             (text ["-- name: a"; "SELECT 1;"; "-- name: b"; "SELECT 2;";
                    "-- name: a"; "SELECT 3;"]%string)
             (file_lines
                (text ["-- name: a"; "SELECT 1;"; "-- name: b";
                       "SELECT 2;"]%string))
             (py "-- name: a" ++ [LF])
             [py "SELECT 3;" ++ [LF]]
             []
             (exec initial
                (file_lines
                   (text ["-- name: a"; "SELECT 1;"; "-- name: b";
                          "SELECT 2;"; "-- name: a"]%string)))
             (py "a")).
    + vm_compute. reflexivity.
    + vm_compute. reflexivity.
    + split; vm_compute; reflexivity.
    + vm_compute. discriminate.
    + vm_compute. repeat constructor.
    + vm_compute. discriminate.
    + exact I.
    + constructor.
  - apply (proj2 (proj2 last_flush_wins)
             (text ["-- name: a"; "SELECT 1;"; "-- name: a"; "-- name: b";
                    "SELECT 2;"]%string)
             [line "-- name: a"; line "SELECT 1;"]
             (line "-- name: a")
             [line "-- name: b"; line "SELECT 2;"]
             (exec initial
                [line "-- name: a"; line "SELECT 1;"; line "-- name: a"])
             (py "a")).
    + vm_compute. reflexivity.
    + vm_compute. reflexivity.
    + split; vm_compute; reflexivity.
    + vm_compute. reflexivity.
    + vm_compute. reflexivity.
    + repeat constructor; vm_compute; discriminate.
Defined.

(** C2 as stated fails: a name carried by two directives has no entry
    when neither flushes, and keeps the body of the first occurrence when
    the last one has nothing to flush. *)
Lemma duplicate_name_counterexample :
  parse_named_queries (text ["-- name: a"; "-- name: a"]%string) = Ok [] /\
  parse_named_queries
    (text ["-- name: a"; "SELECT 1;"; "-- name: a"]%string)
  = Ok [(py "a", py "SELECT 1;")].
Proof. split; vm_compute; reflexivity. Qed.

(** C4 (as amended): when nothing is in the buffer once the first of two
    adjacent directives has been read, the second one stores nothing,
    leaves the buffer empty and makes its own name current; the first name
    then has no entry in the result, provided the mapping held none for it
    when the pair was read and no later directive carries it; the second
    name, when it is not empty, maps to the trimmed lines that follow it,
    provided there is at least one before the next directive or the end of
    the file and no later directive carries it; and the file made of
    ["-- name: only"], ["-- name: next"], ["SELECT 1;"] is parsed to the
    single entry for ["next"]. *)
Theorem adjacent_directives_store_nothing :
  (forall pre d1 d2 st,
     run_lines initial (pre ++ [d1]) = Ok st -> buffer st = [] ->
     is_directive d1 = true -> is_directive d2 = true ->
     exists st',
       run_lines initial (pre ++ [d1; d2]) = Ok st' /\
       queries st' = queries st /\ buffer st' = [] /\
       current_name st' = directive_name d2) /\
  (forall content pre d1 d2 rest st n1,
     file_lines content = pre ++ d1 :: d2 :: rest ->
     run_lines initial (pre ++ [d1]) = Ok st -> buffer st = [] ->
     names n1 d1 -> is_directive d2 = true ->
     lookup n1 (queries st) = None -> never_names n1 (d2 :: rest) ->
     exists q, parse_named_queries content = Ok q /\ lookup n1 q = None) /\
  (forall content pre d1 d2 body rest st n2,
     file_lines content = pre ++ d1 :: d2 :: body ++ rest ->
     run_lines initial (pre ++ [d1]) = Ok st -> buffer st = [] ->
     is_directive d1 = true -> names n2 d2 -> n2 <> [] ->
     Forall content_line body -> body <> [] ->
     at_block_start rest -> never_names n2 rest ->
     exists q,
       parse_named_queries content = Ok q /\
       lookup n2 q = Some (strip (join_empty body))) /\
  parse_named_queries
    (text ["-- name: only"; "-- name: next"; "SELECT 1;"]%string)
  = Ok [(py "next", py "SELECT 1;")].
Proof.
  split; [|split; [|split]].
  - intros pre d1 d2 st Hr Hb H1 H2.
    rewrite run_lines_exec in Hr. injection Hr as <-.
    exists (exec initial (pre ++ [d1; d2])).
    split; [apply run_lines_exec|].
    replace (pre ++ [d1; d2]) with ((pre ++ [d1]) ++ [d2])
      by (now rewrite <- app_assoc).
    rewrite (exec_app _ (pre ++ [d1]) [d2]). simpl.
    unfold next. rewrite H2, (flush_empty_buffer _ Hb). simpl.
    repeat split; auto. symmetry. now apply directive_name_of.
  - intros content pre d1 d2 rest st n1 Hf Hr Hb Hn1 H2 Hl Hnn.
    destruct (after_directive pre d1 n1 st Hr Hn1) as [Hst Hc].
    eexists. split; [apply parse_named_queries_returns|].
    rewrite Hf, split_after, exec_app, <- Hst, exec_cons.
    inversion Hnn as [|? ? Hd2 Hrest]; subst d2 rest.
    unfold next. rewrite H2, (flush_empty_buffer _ Hb).
    rewrite lookup_result_other; simpl; auto.
    rewrite <- (directive_name_of _ H2). auto.
  - intros content pre d1 d2 body rest st n2 Hf Hr Hb H1 Hn2 Hne Hbody
           Hnonempty Hs Hnn.
    rewrite run_lines_exec in Hr. injection Hr as Hst.
    eexists. split; [apply parse_named_queries_returns|].
    rewrite Hf, split_after, exec_app, Hst, exec_cons.
    rewrite (next_directive st d2 n2 Hn2), (flush_empty_buffer _ Hb), Hb.
    rewrite block_decides_entry; simpl; auto.
  - vm_compute. reflexivity.
Qed.

Lemma adjacent_directives_store_nothing_witness :
  (exists q,
     parse_named_queries
       (text ["-- name: q0"; "SELECT 0;"; "-- name: only"; "-- name: next";
              "SELECT 1;"]%string) = Ok q /\
     lookup (py "only") q = None) /\
  (exists q,
     parse_named_queries
       (text ["-- name: q0"; "SELECT 0;"; "-- name: only"; "-- name: next";
              "SELECT 1;"]%string) = Ok q /\
     lookup (py "next") q = Some (py "SELECT 1;")).
Proof.
  split.
  - apply (proj1 (proj2 adjacent_directives_store_nothing)
             (text ["-- name: q0"; "SELECT 0;"; "-- name: only";
                    "-- name: next"; "SELECT 1;"]%string)
             [line "-- name: q0"; line "SELECT 0;"]
             (line "-- name: only") (line "-- name: next")
             [line "SELECT 1;"]
             (exec initial
                [line "-- name: q0"; line "SELECT 0;"; line "-- name: only"])
             (py "only")).
    + vm_compute. reflexivity.
    + vm_compute. reflexivity.
    + vm_compute. reflexivity.
    + split; vm_compute; reflexivity.
    + vm_compute. reflexivity.
    + vm_compute. reflexivity.
    + repeat constructor; vm_compute; discriminate.
  - apply (proj1 (proj2 (proj2 adjacent_directives_store_nothing))
             (text ["-- name: q0"; "SELECT 0;"; "-- name: only";
                    "-- name: next"; "SELECT 1;"]%string)
             [line "-- name: q0"; line "SELECT 0;"]
             (line "-- name: only") (line "-- name: next")
             [line "SELECT 1;"] []
             (exec initial
                [line "-- name: q0"; line "SELECT 0;"; line "-- name: only"])
             (py "next")).
    + vm_compute. reflexivity.
    + vm_compute. reflexivity.
    + vm_compute. reflexivity.
    + vm_compute. reflexivity.
    + split; vm_compute; reflexivity.
    + vm_compute. discriminate.
    + vm_compute. repeat constructor.
    + discriminate.
    + exact I.
    + constructor.
Defined.

(** C4 as stated fails: the name of the first of two adjacent directives
    has an entry when an earlier directive with the same name stored one,
    and also when lines were still in the buffer as the pair was read. *)
Lemma adjacent_directives_counterexample :
  parse_named_queries
    (text ["-- name: only"; "SELECT 1;"; "-- name: only"; "-- name: next";
           "SELECT 2;"]%string)
  = Ok [(py "only", py "SELECT 1;"); (py "next", py "SELECT 2;")] /\
  parse_named_queries
    (text ["SELECT 0;"; "-- name: only"; "-- name: next"; "SELECT 1;"]%string)
  = Ok [(py "only", py "SELECT 0;"); (py "next", py "SELECT 1;")].
Proof. split; vm_compute; reflexivity. Qed.

(** C9 (as amended): a directive with a non-empty name, read with an empty
    buffer and followed by at least one line, all of them whitespace-only,
    has the empty string stored under its name by the next flush, whether
    the next directive or the end of the file triggers it; the entry is
    still there in the result when no later directive carries the name. *)
Theorem blank_lines_store_empty_body :
  forall pre d blanks st n,
    run_lines initial (pre ++ [d]) = Ok st -> buffer st = [] ->
    names n d -> n <> [] ->
    blanks <> [] -> Forall blank_line blanks ->
    (forall d',
       is_directive d' = true ->
       exists st',
         run_lines initial (pre ++ d :: blanks ++ [d']) = Ok st' /\
         lookup n (queries st') = Some [] /\ buffer st' = []) /\
    (forall content rest,
       file_lines content = pre ++ d :: blanks ++ rest ->
       at_block_start rest -> never_names n rest ->
       exists q,
         parse_named_queries content = Ok q /\ lookup n q = Some []).
Proof.
  intros pre d blanks st n Hr Hb Hn Hne Hbl Hall.
  destruct (after_directive pre d n st Hr Hn) as [Hst Hc].
  assert (Hcontent : Forall content_line blanks).
  { eapply Forall_impl; [|exact Hall]. exact blank_is_content. }
  assert (Hbody : body_of (buffer st ++ blanks) = []).
  { rewrite Hb. simpl. now apply strip_concat_blank. }
  assert (Hnonempty : buffer st ++ blanks <> []).
  { rewrite Hb. exact Hbl. }
  split.
  - intros d' Hd'.
    exists (exec initial (pre ++ d :: blanks ++ [d'])).
    split; [apply run_lines_exec|].
    rewrite split_after, exec_app, <- Hst, exec_app.
    rewrite (exec_content blanks st Hcontent). simpl.
    unfold next. rewrite Hd'.
    rewrite (flush_stores _ n) by (simpl; auto). simpl.
    rewrite Hbody. split; [apply lookup_dict_set_same|reflexivity].
  - intros content rest Hf Hs Hnn.
    eexists. split; [apply parse_named_queries_returns|].
    rewrite Hf, split_after, exec_app, <- Hst.
    rewrite block_decides_entry by auto. now rewrite Hbody.
Qed.

Lemma blank_lines_store_empty_body_witness :
  exists q,
    parse_named_queries
      (text ["-- name: a"; "   "; ""; "-- name: b"; "SELECT 2;"]%string)
    = Ok q /\ lookup (py "a") q = Some [].
Proof.
  apply (proj2 (blank_lines_store_empty_body
                  [] (line "-- name: a") [line "   "; line ""]
                  (exec initial [line "-- name: a"]) (py "a")
                  ltac:(vm_compute; reflexivity)
                  ltac:(vm_compute; reflexivity)
                  ltac:(split; vm_compute; reflexivity)
                  ltac:(vm_compute; discriminate)
                  ltac:(discriminate)
                  ltac:(repeat constructor))
           (text ["-- name: a"; "   "; ""; "-- name: b"; "SELECT 2;"]%string)
           [line "-- name: b"; line "SELECT 2;"]).
  - vm_compute. reflexivity.
  - vm_compute. reflexivity.
  - repeat constructor; vm_compute; discriminate.
Defined.

(** C9 as stated fails: nothing is stored when the name is empty, and the
    body is not empty when lines read before the directive are still in
    the buffer. *)
Lemma blank_lines_counterexample :
  parse_named_queries (text ["-- name:"; "   "]%string) = Ok [] /\
  parse_named_queries (text ["SELECT 0;"; "-- name: a"; "   "]%string)
  = Ok [(py "a", py "SELECT 0;")].
Proof. split; vm_compute; reflexivity. Qed.

(** Under an empty current name, content lines and further directives
    with an empty name only grow the buffer. *)
Lemma exec_unnamed (mid : list pystr) (st : locals) :
  current_name st = Some [] ->
  Forall (fun l => content_line l \/ names [] l) mid ->
  exec st mid =
  {| queries := queries st; current_name := Some [];
     buffer := buffer st ++ content_of mid |}.
Proof.
  revert st. induction mid as [|l ls IH]; intros st Hc H.
  - simpl. rewrite app_nil_r. destruct st; simpl in *. now subst.
  - inversion H as [|? ? Hl Hls]; subst. rewrite exec_cons.
    destruct Hl as [Hl|Hl].
    + rewrite next_content by exact Hl. rewrite IH by auto. simpl.
      unfold content_of at 2. simpl. unfold content_line in Hl.
      rewrite Hl. simpl. now rewrite <- app_assoc.
    + rewrite (next_directive st l [] Hl).
      rewrite flush_falsy_name by (now rewrite Hc).
      rewrite IH by auto. simpl.
      unfold content_of at 2. simpl. destruct Hl as [Hl _].
      now rewrite Hl.
Qed.

(** C10: no entry is ever stored under the empty string; the lines that
    follow a directive with an empty name stay in the buffer and are part
    of the body stored by the next flush made for a later directive with a
    non-empty name; with no such directive they are dropped at the end of
    the file. *)
Theorem empty_name_keeps_buffer :
  (forall content,
     exists q, parse_named_queries content = Ok q /\ lookup [] q = None) /\
  (forall content pre d0 mid d1 body1 rest st0 n1,
     file_lines content = pre ++ d0 :: mid ++ d1 :: body1 ++ rest ->
     run_lines initial (pre ++ [d0]) = Ok st0 ->
     names [] d0 ->
     Forall (fun l => content_line l \/ names [] l) mid ->
     names n1 d1 -> n1 <> [] -> Forall content_line body1 ->
     buffer st0 ++ content_of mid ++ body1 <> [] ->
     at_block_start rest -> never_names n1 rest ->
     exists q,
       parse_named_queries content = Ok q /\
       lookup n1 q
       = Some (strip (join_empty (buffer st0 ++ content_of mid ++ body1)))) /\
  (forall content pre d0 mid st0,
     file_lines content = pre ++ d0 :: mid ->
     run_lines initial (pre ++ [d0]) = Ok st0 ->
     names [] d0 ->
     Forall (fun l => content_line l \/ names [] l) mid ->
     parse_named_queries content = Ok (queries st0)).
Proof.
  split; [|split].
  - intros content. eexists. split; [apply parse_named_queries_returns|].
    apply lookup_none_keys. apply well_keyed_result.
  - intros content pre d0 mid d1 body1 rest st0 n1
           Hf Hr Hd0 Hmid Hd1 Hne Hb1 Hbuf Hs Hnn.
    destruct (after_directive pre d0 [] st0 Hr Hd0) as [Hst Hc].
    eexists. split; [apply parse_named_queries_returns|].
    rewrite Hf, split_after, exec_app, <- Hst, exec_app.
    rewrite (exec_unnamed mid st0 Hc Hmid), exec_cons.
    rewrite (next_directive _ d1 n1 Hd1).
    rewrite flush_falsy_name by reflexivity. simpl.
    rewrite block_decides_entry; simpl; auto;
      now rewrite <- app_assoc.
  - intros content pre d0 mid st0 Hf Hr Hd0 Hmid.
    destruct (after_directive pre d0 [] st0 Hr Hd0) as [Hst Hc].
    rewrite parse_named_queries_returns. f_equal.
    rewrite Hf, split_after, exec_app, <- Hst.
    rewrite (exec_unnamed mid st0 Hc Hmid).
    now rewrite finish_falsy_name.
Qed.

Lemma empty_name_keeps_buffer_witness :
  (exists q,
     parse_named_queries
       (text ["-- name: a"; "SELECT 1;"; "-- name:"; "SELECT 2;";
              "-- name: b"; "SELECT 3;"]%string) = Ok q /\
     lookup (py "b") q = Some (py "SELECT 2;" ++ [LF] ++ py "SELECT 3;")) /\
  parse_named_queries
    (text ["-- name: a"; "SELECT 1;"; "-- name:"; "SELECT 2;"]%string)
  = Ok [(py "a", py "SELECT 1;")].
Proof.
  split.
  - apply (proj1 (proj2 empty_name_keeps_buffer)
             (text ["-- name: a"; "SELECT 1;"; "-- name:"; "SELECT 2;";
                    "-- name: b"; "SELECT 3;"]%string)
             [line "-- name: a"; line "SELECT 1;"]
             (line "-- name:") [line "SELECT 2;"]
             (line "-- name: b") [line "SELECT 3;"] []
             (exec initial
                [line "-- name: a"; line "SELECT 1;"; line "-- name:"])
             (py "b")).
    + vm_compute. reflexivity.
    + vm_compute. reflexivity.
    + split; vm_compute; reflexivity.
    + constructor; [left; vm_compute; reflexivity|constructor].
    + split; vm_compute; reflexivity.
    + vm_compute. discriminate.
    + vm_compute. repeat constructor.
    + vm_compute. discriminate.
    + exact I.
    + constructor.
  - apply (proj2 (proj2 empty_name_keeps_buffer)
             (text ["-- name: a"; "SELECT 1;"; "-- name:";
                    "SELECT 2;"]%string)
             [line "-- name: a"; line "SELECT 1;"]
             (line "-- name:") [line "SELECT 2;"]
             (exec initial
                [line "-- name: a"; line "SELECT 1;"; line "-- name:"])).
    + vm_compute. reflexivity.
    + vm_compute. reflexivity.
    + split; vm_compute; reflexivity.
    + constructor; [left; vm_compute; reflexivity|constructor].
Defined.

(* ================================================================== *)
(** ** Facts about [sorted] *)

Section SortedFacts.

Lemma str_leb_total (a b : pystr) : str_leb a b = true \/ str_leb b a = true.
Proof.
  revert b. induction a as [|x a IH]; intros [|y b]; simpl; auto.
  destruct (N.ltb_spec x y), (N.ltb_spec y x), (N.eqb_spec x y),
    (N.eqb_spec y x); auto; lia.
Qed.

Lemma str_leb_trans (a b c : pystr) :
  str_leb a b = true -> str_leb b c = true -> str_leb a c = true.
Proof.
  revert b c. induction a as [|x a IH]; intros [|y b] [|z c]; simpl;
    auto; try discriminate.
  destruct (N.ltb_spec x y), (N.ltb_spec y z), (N.ltb_spec x z),
    (N.eqb_spec x y), (N.eqb_spec y z), (N.eqb_spec x z);
    try discriminate; try lia; auto.
  intros. eapply IH; eauto.
Qed.

Lemma insert_sorted_perm (x : pystr) (l : list pystr) :
  Permutation (insert_sorted x l) (x :: l).
Proof.
  induction l as [|y l IH]; simpl; [reflexivity|].
  destruct (str_leb x y); [reflexivity|].
  rewrite IH. apply perm_swap.
Qed.

Lemma sorted_perm (l : list pystr) : Permutation (sorted l) l.
Proof.
  induction l as [|x l IH]; simpl; [reflexivity|].
  rewrite insert_sorted_perm. now constructor.
Qed.

Lemma insert_sorted_ordered (x : pystr) (l : list pystr) :
  StronglySorted (fun a b => str_leb a b = true) l ->
  StronglySorted (fun a b => str_leb a b = true) (insert_sorted x l).
Proof.
  induction 1 as [|y l Hs IH Hall]; simpl.
  - repeat constructor.
  - destruct (str_leb x y) eqn:E.
    + constructor; [now constructor|].
      constructor; [exact E|].
      eapply Forall_impl; [|exact Hall].
      intros z Hz. simpl in Hz. now apply (str_leb_trans x y z).
    + constructor; [exact IH|].
      rewrite insert_sorted_perm.
      constructor; [|exact Hall].
      destruct (str_leb_total x y); congruence.
Qed.

Lemma sorted_ordered (l : list pystr) :
  StronglySorted (fun a b => str_leb a b = true) (sorted l).
Proof.
  induction l as [|x l IH]; simpl; [constructor|].
  now apply insert_sorted_ordered.
Qed.

End SortedFacts.

(* ================================================================== *)
(** ** Properties of [run_queries] *)

Section RunnerFacts.

Context {Row EngineError : Type}.
Variable execute : pystr -> result EngineError (list Row).

Lemma executed_app (a b : list (event Row)) :
  executed (a ++ b) = executed a ++ executed b.
Proof. apply flat_map_app. Qed.

Lemma headings_app (a b : list (event Row)) :
  headings (a ++ b) = headings a ++ headings b.
Proof. apply flat_map_app. Qed.

Lemma printed_rows_silent (explain : bool) (rows : list Row) :
  executed (if explain then [PrintPlan rows] else map PrintRow rows) = [] /\
  headings (if explain then [PrintPlan rows] else map PrintRow rows) = [].
Proof.
  destruct explain; [now split|].
  induction rows as [|r rows [IH1 IH2]]; simpl; now split.
Qed.

(** With no selection and an engine that answers, the loop runs every
    item, in the order of the dictionary. *)
Lemma run_loop_all (explain : bool) (items : pydict) :
  (forall sql, exists rows, execute sql = Ok rows) ->
  snd (run_loop execute None explain items) = Ok tt /\
  executed (fst (run_loop execute None explain items))
  = map (fun e => plan_prefix explain ++ snd e) items /\
  headings (fst (run_loop execute None explain items))
  = map (fun e => heading (fst e)) items.
Proof.
  intros Htotal. induction items as [|[name sql] items IH]; simpl.
  - now split.
  - destruct (Htotal (plan_prefix explain ++ sql)) as [rows ->].
    destruct (run_loop execute None explain items) as [later outcome].
    simpl in *. destruct IH as (H1 & H2 & H3).
    destruct (printed_rows_silent explain rows) as [P1 P2].
    rewrite executed_app, headings_app, P1, P2. simpl.
    now rewrite H1, H2, H3.
Qed.

(** The empty string selects nothing in particular: the loop skips no
    entry, as when no name is selected. *)
Lemma run_loop_empty_selection (explain : bool) (items : pydict) :
  run_loop execute (Some []) explain items
  = run_loop execute None explain items.
Proof.
  induction items as [|[name sql] items IH]; [reflexivity|].
  cbn [run_loop skipped truthy andb]. now rewrite IH.
Qed.

End RunnerFacts.

(** C6 (as amended): for a non-empty selected name that is not a key of
    the parsed mapping, [run_queries] raises [SystemExit] before it
    connects or executes anything, and the message lists every name of the
    mapping once, in ascending order; an empty selected name is treated
    exactly like no name: [run_queries] does what it does when no name is
    selected. *)
Theorem unknown_name_fails :
  (forall (Row EngineError : Type)
          (execute : pystr -> result EngineError (list Row))
          (content selected : pystr) (explain : bool) (q : pydict),
     parse_named_queries content = Ok q ->
     selected <> [] -> lookup selected q = None ->
     run_queries execute content (Some selected) explain
     = ([], Raise (SystemExit
                     (py "Query '" ++ selected
                      ++ py "' not found. Available: "
                      ++ join (py ", ") (sorted (keys q))))) /\
     Permutation (sorted (keys q)) (keys q) /\
     NoDup (sorted (keys q)) /\
     StronglySorted (fun a b => str_leb a b = true) (sorted (keys q))) /\
  (forall (Row EngineError : Type)
          (execute : pystr -> result EngineError (list Row))
          (content : pystr) (explain : bool),
     run_queries execute content (Some []) explain
     = run_queries execute content None explain).
Proof.
  split.
  - intros Row EngineError execute content selected explain q Hp Hne Hl.
    split; [|split; [|split]].
    + unfold run_queries. rewrite Hp. unfold unknown, mem. rewrite Hl.
      destruct selected; [contradiction|]. reflexivity.
    + apply sorted_perm.
    + rewrite parse_named_queries_returns in Hp. injection Hp as <-.
      apply (Permutation_NoDup
               (l := keys (finish (exec initial (file_lines content))))).
      * symmetry. apply sorted_perm.
      * apply well_keyed_result.
    + apply sorted_ordered.
  - intros Row EngineError execute content explain.
    unfold run_queries. destruct (parse_named_queries content) as [q|e];
      [|reflexivity].
    cbn [unknown truthy andb].
    now rewrite (run_loop_empty_selection execute explain q).
Qed.

Lemma unknown_name_fails_witness :
  run_queries (Row := unit) (EngineError := unit) (fun _ => Ok [])
    (text ["-- name: q2"; "SELECT 2;"; "-- name: q1"; "SELECT 1;"]%string)
    (Some (py "q3")) false
  = ([], Raise (SystemExit
                  (py "Query 'q3' not found. Available: q1, q2"))).
Proof.
  exact (proj1 (proj1 unknown_name_fails unit unit (fun _ => Ok [])
                  (text ["-- name: q2"; "SELECT 2;"; "-- name: q1";
                         "SELECT 1;"]%string)
                  (py "q3") false
                  [(py "q2", py "SELECT 2;"); (py "q1", py "SELECT 1;")]
                  ltac:(vm_compute; reflexivity)
                  ltac:(vm_compute; discriminate)
                  ltac:(vm_compute; reflexivity))).
Defined.

(** C6 as stated fails: the empty string is a supplied name that is not a
    key, and [run_queries] then raises nothing and runs every query. *)
Lemma empty_selection_runs_everything :
  lookup [] [(py "q1", py "SELECT 1;")] = None /\
  parse_named_queries (text ["-- name: q1"; "SELECT 1;"]%string)
  = Ok [(py "q1", py "SELECT 1;")] /\
  run_queries (Row := unit) (EngineError := unit) (fun _ => Ok [])
    (text ["-- name: q1"; "SELECT 1;"]%string) (Some []) false
  = ([Connect; PrintHeading ([LF] ++ py "-- q1 --");
      Execute (py "SELECT 1;"); Close],
     Ok tt).
Proof. repeat split; vm_compute; reflexivity. Qed.

(* ================================================================== *)
(** ** Properties of the customer rollup ranking *)

Section RollupFacts.

Lemma insert_desc_perm (a : group_aggregate) (l : list group_aggregate) :
  Permutation (insert_desc a l) (a :: l).
Proof.
  induction l as [|b l IH]; simpl; [reflexivity|].
  destruct (Qle_bool _ _); [reflexivity|].
  rewrite IH. apply perm_swap.
Qed.

Lemma order_by_revenue_desc_perm (l : list group_aggregate) :
  Permutation (order_by_revenue_desc l) l.
Proof.
  induction l as [|a l IH]; simpl; [reflexivity|].
  rewrite insert_desc_perm. now constructor.
Qed.

Lemma insert_desc_sorted (a : group_aggregate) (l : list group_aggregate) :
  StronglySorted revenue_descending l ->
  StronglySorted revenue_descending (insert_desc a l).
Proof.
  induction 1 as [|b l Hs IH Hall]; simpl.
  - repeat constructor.
  - destruct (Qle_bool (agg_total_revenue b) (agg_total_revenue a)) eqn:E.
    + apply Qle_bool_iff in E.
      constructor; [now constructor|].
      constructor; [exact E|].
      eapply Forall_impl; [|exact Hall].
      intros c Hc. unfold revenue_descending in *.
      now apply Qle_trans with (y := agg_total_revenue b).
    + constructor; [exact IH|].
      rewrite insert_desc_perm. constructor; [|exact Hall].
      unfold revenue_descending. apply Qlt_le_weak, Qnot_le_lt.
      intros H. apply Qle_bool_iff in H. congruence.
Qed.

Lemma order_by_revenue_desc_sorted (l : list group_aggregate) :
  StronglySorted revenue_descending (order_by_revenue_desc l).
Proof.
  induction l as [|a l IH]; simpl; [constructor|].
  now apply insert_desc_sorted.
Qed.

(** Whatever the order of the window, [ROW_NUMBER()] numbers its rows
    consecutively. *)
Lemma row_number_ranks (l : list group_aggregate) (k : N) :
  map revenue_rank (row_number k l)
  = map (fun i => k + N.of_nat i) (seq 0 (length l)).
Proof.
  revert k. induction l as [|a l IH]; intros k; simpl; [reflexivity|].
  rewrite N.add_0_r. f_equal. rewrite IH, <- seq_shift, map_map.
  apply map_ext. intros i. lia.
Qed.

Lemma row_number_length (l : list group_aggregate) (k : N) :
  length (row_number k l) = length l.
Proof.
  revert k. induction l as [|a l IH]; intros k; simpl; auto.
Qed.

Lemma row_number_columns (l : list group_aggregate) (k : N) :
  map rollup_customer_id (row_number k l) = map agg_customer_id l /\
  map total_revenue (row_number k l) = map agg_total_revenue l.
Proof.
  revert k. induction l as [|a l IH]; intros k; simpl; [now split|].
  destruct (IH (k + 1)) as [H1 H2]. now rewrite H1, H2.
Qed.

Lemma row_number_sorted (l : list group_aggregate) (k : N) :
  StronglySorted revenue_descending l ->
  StronglySorted (fun a b => Qle (total_revenue b) (total_revenue a))
    (row_number k l).
Proof.
  intros H. revert k. induction H as [|a l Hs IH Hall]; intros k; simpl.
  - constructor.
  - constructor; [apply IH|].
    clear IH Hs. generalize (k + 1). induction Hall as [|b l Hb _ IH];
      intros j; simpl; constructor; auto.
Qed.

Lemma consecutive_NoDup (k : N) (n : nat) :
  NoDup (map (fun i => k + N.of_nat i) (seq 0 n)).
Proof.
  apply Injective_map_NoDup; [|apply seq_NoDup].
  intros i j H. lia.
Qed.

End RollupFacts.

(** C8 (as amended): [revenue_rank] is a row number over total revenue in
    descending order: listed by rank, the rows carry the ranks 1, 2, ...,
    n with none repeated and none skipped, a later row never has a larger
    total revenue, and there is one row per customer; so two customers
    never share a rank, tied or not. *)
Theorem revenue_rank_is_row_number (rows : list fact_order) :
  map revenue_rank (customer_rollups rows)
  = map (fun i => N.of_nat (S i)) (seq 0 (length (customer_rollups rows))) /\
  NoDup (map revenue_rank (customer_rollups rows)) /\
  StronglySorted (fun a b => Qle (total_revenue b) (total_revenue a))
    (customer_rollups rows) /\
  Permutation (map rollup_customer_id (customer_rollups rows))
    (nodup Z.eq_dec (map customer_id rows)).
Proof.
  unfold customer_rollups.
  set (ordered := order_by_revenue_desc (group_by_customer rows)).
  assert (Hranks : map revenue_rank (row_number 1 ordered)
            = map (fun i => N.of_nat (S i))
                (seq 0 (length (row_number 1 ordered)))).
  { rewrite row_number_ranks, row_number_length.
    apply map_ext. intros i. lia. }
  assert (Hnodup : NoDup (map revenue_rank (row_number 1 ordered))).
  { rewrite row_number_ranks. apply consecutive_NoDup. }
  split; [exact Hranks|]. split; [exact Hnodup|].
  split; [apply row_number_sorted, order_by_revenue_desc_sorted|].
  rewrite (proj1 (row_number_columns ordered 1)).
  unfold ordered. rewrite order_by_revenue_desc_perm.
  unfold group_by_customer. rewrite map_map. simpl.
  now rewrite map_id.
Qed.

(** C8 as stated fails: two customers tied on total revenue receive the
    ranks 1 and 2, where a dense rank gives both the rank 1. *)
Lemma tied_customers_get_different_ranks :
  let rows :=
    [ {| customer_id := 1; order_ts := 100; quantity := 1;
         gross_revenue := 10 # 1 |};
      {| customer_id := 2; order_ts := 200; quantity := 2;
         gross_revenue := 10 # 1 |} ] in
  map (fun r => (rollup_customer_id r, total_revenue r, revenue_rank r))
    (customer_rollups rows)
  = [(1%Z, 10 # 1, 1); (2%Z, 10 # 1, 2)] /\
  map (fun r => (rollup_customer_id r, revenue_rank r))
    (dense_rank_spec (order_by_revenue_desc (group_by_customer rows)))
  = [(1%Z, 1); (2%Z, 1)].
Proof. split; vm_compute; reflexivity. Qed.

(* ================================================================== *)
(** ** Further properties of [parse_named_queries] *)

Section TrimFacts.

Lemma lstrip_clean (s : pystr) : clean_start s -> lstrip s = s.
Proof.
  destruct s as [|c s]; simpl; [reflexivity|]. now intros ->.
Qed.

Lemma lstrip_suffix (s : pystr) :
  exists spaces, s = spaces ++ lstrip s /\ whitespace spaces.
Proof.
  induction s as [|c s (p & Hp & Hw)]; simpl.
  - now exists [].
  - destruct (isspace c) eqn:E.
    + exists (c :: p). split; [simpl; now f_equal|].
      unfold whitespace in *. simpl. now rewrite E.
    + now exists [].
Qed.

Lemma clean_start_prefix (x y : pystr) :
  x <> [] -> clean_start (x ++ y) -> clean_start x.
Proof. destruct x; [contradiction|]. now simpl. Qed.

(** What [strip] returns has no whitespace at either end. *)
Lemma strip_trimmed (s : pystr) : trimmed (strip s).
Proof.
  unfold trimmed, strip, rstrip. rewrite rev_involutive.
  split; [|apply lstrip_head].
  pose proof (lstrip_head s) as Ht.
  destruct (lstrip_suffix (rev (lstrip s))) as (p & Hp & _).
  destruct (lstrip (rev (lstrip s))) as [|c u] eqn:Hu; [exact I|].
  apply (f_equal (@rev char)) in Hp.
  rewrite rev_involutive, rev_app_distr in Hp.
  apply (clean_start_prefix (rev (c :: u)) (rev p)).
  - intros H. apply (f_equal (@rev char)) in H.
    rewrite rev_involutive in H. discriminate.
  - rewrite <- Hp. exact Ht.
Qed.

Lemma strip_of_trimmed (s : pystr) : trimmed s -> strip s = s.
Proof.
  intros [H1 H2]. unfold strip, rstrip.
  rewrite (lstrip_clean s H1), (lstrip_clean (rev s) H2).
  apply rev_involutive.
Qed.

Lemma strip_idempotent (s : pystr) : strip (strip s) = strip s.
Proof. apply strip_of_trimmed, strip_trimmed. Qed.

End TrimFacts.

Section KeyProvenance.

Lemma named_by_grow (seen more : list pystr) (n : pystr) :
  named_by seen n -> named_by (seen ++ more) n.
Proof.
  intros (l & Hl & Hn). exists l. split; [|exact Hn].
  apply in_or_app. now left.
Qed.

Lemma keys_from_flush (seen : list pystr) (st : locals) :
  keys_from seen st -> keys_from seen (flush st).
Proof.
  intros [Hk Hc].
  destruct (flush_cases st) as [->|(n & Hn & _ & _ & ->)]; [now split|].
  split; simpl.
  - intros k Hin. rewrite keys_dict_set in Hin.
    destruct (mem n (queries st)); [now apply Hk|].
    apply in_app_or in Hin as [Hin|[<-|[]]]; [now apply Hk|now apply Hc].
  - intros m [= <-]. now apply Hc.
Qed.

Lemma keys_from_next (seen : list pystr) (st : locals) (line : pystr) :
  keys_from seen st -> keys_from (seen ++ [line]) (next st line).
Proof.
  intros H. unfold next. destruct (is_directive line) eqn:E.
  - destruct (keys_from_flush seen st H) as [Hk _]. split; simpl.
    + intros k Hin. now apply named_by_grow, Hk.
    + intros n [= <-]. exists line. split.
      * apply in_or_app. right. now left.
      * split; [exact E|now apply directive_name_of].
  - destruct H as [Hk Hc]. split; simpl.
    + intros k Hin. now apply named_by_grow, Hk.
    + intros n Hn. now apply named_by_grow, Hc.
Qed.

Lemma keys_from_exec (lines seen : list pystr) (st : locals) :
  keys_from seen st -> keys_from (seen ++ lines) (exec st lines).
Proof.
  revert seen st. induction lines as [|l ls IH]; intros seen st H.
  - now rewrite app_nil_r.
  - rewrite exec_cons.
    replace (seen ++ l :: ls) with ((seen ++ [l]) ++ ls)
      by (now rewrite <- app_assoc).
    apply IH. now apply keys_from_next.
Qed.

Lemma keys_from_result (lines : list pystr) (k : pystr) :
  In k (keys (finish (exec initial lines))) -> named_by lines k.
Proof.
  intros Hin. rewrite finish_flush in Hin.
  assert (H : keys_from lines (exec initial lines)).
  { apply (keys_from_exec lines [] initial). split; simpl.
    - tauto.
    - discriminate. }
  apply keys_from_flush in H. destruct H as [Hk _]. now apply Hk.
Qed.

Lemma length_dict_set (k v : pystr) (d : pydict) :
  (length (dict_set k v d) <= S (length d))%nat.
Proof.
  induction d as [|[k' v'] d IH]; simpl; [lia|].
  destruct (str_eqb k' k); simpl; lia.
Qed.

Lemma length_flush (st : locals) :
  (length (queries (flush st)) <= names_in_play st)%nat.
Proof.
  unfold names_in_play.
  destruct (flush_cases st) as [->|(n & Hn & _ & _ & ->)]; [lia|].
  simpl. rewrite Hn. pose proof (length_dict_set n (body_of (buffer st))
                                   (queries st)). lia.
Qed.

(** At most one name comes into play per directive read. *)
Lemma names_in_play_next (st : locals) (line : pystr) :
  (names_in_play (next st line)
   <= names_in_play st + (if is_directive line then 1 else 0))%nat.
Proof.
  unfold next. destruct (is_directive line).
  - unfold names_in_play at 1. simpl. pose proof (length_flush st). lia.
  - unfold names_in_play. simpl. lia.
Qed.

Lemma names_in_play_exec (lines : list pystr) (st : locals) :
  (names_in_play (exec st lines)
   <= names_in_play st + directive_count lines)%nat.
Proof.
  revert st. induction lines as [|l ls IH]; intros st.
  - simpl. unfold directive_count. simpl. lia.
  - rewrite exec_cons. specialize (IH (next st l)).
    pose proof (names_in_play_next st l) as Hn.
    unfold directive_count in *. simpl.
    destruct (is_directive l); simpl in *; lia.
Qed.

End KeyProvenance.

Section BlockFacts.

Lemma dict_set_fresh (k v : pystr) (d : pydict) :
  ~ In k (keys d) -> dict_set k v d = d ++ [(k, v)].
Proof.
  unfold keys. induction d as [|[k' v'] d IH]; simpl; [reflexivity|].
  intros H. destruct (str_eqb k' k) eqn:E.
  - apply str_eqb_eq in E. tauto.
  - f_equal. apply IH. tauto.
Qed.

(** From the state just after a directive, a sequence of well-formed
    blocks with fresh, distinct names adds one entry per block, in
    order. *)
Lemma blocks_add_entries (blocks : list block) :
  forall (q : pydict) (n : pystr) (body : list pystr),
    n <> [] -> body <> [] -> Forall content_line body ->
    Forall well_formed_block blocks ->
    NoDup (n :: map (fun b => name_of (fst b)) blocks) ->
    (forall k, In k (n :: map (fun b => name_of (fst b)) blocks) ->
               ~ In k (keys q)) ->
    finish (exec {| queries := q; current_name := Some n; buffer := [] |}
              (body ++ flat_map block_lines blocks))
    = q ++ (n, body_of body) :: map block_entry blocks.
Proof.
  induction blocks as [|[d body'] blocks IH];
    intros q n body Hn Hb Hc Hwf Hnd Hfresh.
  - simpl. rewrite app_nil_r, (exec_content body _ Hc). simpl.
    rewrite (finish_stores _ n) by (simpl; auto). simpl.
    apply dict_set_fresh. apply Hfresh. now left.
  - inversion Hwf as [|? ? (Hd & Hn' & Hb' & Hc') Hwf']; subst.
    simpl in Hd, Hn', Hb', Hc'.
    change (flat_map block_lines ((d, body') :: blocks))
      with (d :: (body' ++ flat_map block_lines blocks)).
    rewrite exec_app, (exec_content body _ Hc), exec_cons.
    unfold next. rewrite Hd.
    rewrite (flush_stores _ n) by (simpl; auto). simpl.
    rewrite dict_set_fresh by (apply Hfresh; now left).
    inversion Hnd as [|? ? Hnotin Hnd']; subst.
    rewrite IH; auto.
    + now rewrite <- app_assoc.
    + intros k Hk Hin. unfold keys in Hin. rewrite map_app in Hin.
      apply in_app_or in Hin as [Hin|[<-|[]]].
      * apply (Hfresh k); [now right|exact Hin].
      * now apply Hnotin.
Qed.

End BlockFacts.

(** X1: [parse_named_queries] returns a mapping for every file: the index
    of line 156 is always in range, so [IndexError] is never raised. *)
Theorem parse_never_raises :
  (forall st line, exists st', step st line = Ok st') /\
  (forall content, exists q, parse_named_queries content = Ok q).
Proof.
  split.
  - intros st line. exists (next st line). apply step_next.
  - intros content. eexists. apply parse_named_queries_returns.
Qed.

(** X2: a file made of blocks, each a directive with a non-empty name
    followed by at least one non-directive line, with pairwise distinct
    names, is parsed to one entry per block, in file order, whose body is
    the trimmed concatenation of the lines of the block. *)
Theorem well_formed_file_parses_blockwise
  (content : pystr) (blocks : list block) :
  file_lines content = flat_map block_lines blocks ->
  Forall well_formed_block blocks ->
  NoDup (map (fun b => name_of (fst b)) blocks) ->
  parse_named_queries content = Ok (map block_entry blocks).
Proof.
  intros Hf Hwf Hnd. rewrite parse_named_queries_returns, Hf. f_equal.
  destruct blocks as [|[d body] blocks]; [reflexivity|].
  inversion Hwf as [|? ? (Hd & Hn & Hb & Hc) Hwf']; subst.
  simpl in Hd, Hn, Hb, Hc.
  change (flat_map block_lines ((d, body) :: blocks))
    with (d :: (body ++ flat_map block_lines blocks)).
  rewrite exec_cons. unfold next. rewrite Hd. simpl.
  now rewrite (blocks_add_entries blocks [] (name_of d) body).
Qed.

Lemma well_formed_file_parses_blockwise_witness :
  parse_named_queries
    (text ["-- name: top"; "SELECT 1"; "FROM t;"; "";
           "  -- name: last  "; "SELECT 2;"]%string)
  = Ok [(py "top", py "SELECT 1" ++ [LF] ++ py "FROM t;");
        (py "last", py "SELECT 2;")].
Proof.
  apply (well_formed_file_parses_blockwise
           (text ["-- name: top"; "SELECT 1"; "FROM t;"; "";
                  "  -- name: last  "; "SELECT 2;"]%string)
           [(line "-- name: top",
             [line "SELECT 1"; line "FROM t;"; line ""]);
            (line "  -- name: last  ", [line "SELECT 2;"])]).
  - vm_compute. reflexivity.
  - repeat constructor; try (vm_compute; discriminate);
      vm_compute; reflexivity.
  - vm_compute. repeat constructor; simpl; intuition discriminate.
Defined.

(** X3: every key of the returned mapping is the name carried by some
    directive line of the file; it is not empty and has no whitespace at
    either end. *)
Theorem keys_are_directive_names
  (content : pystr) (q : pydict) (k : pystr) :
  parse_named_queries content = Ok q -> In k (keys q) ->
  k <> [] /\ trimmed k /\
  exists l, In l (file_lines content) /\
            is_directive l = true /\ directive_name l = Some k.
Proof.
  intros Hp Hin. rewrite parse_named_queries_returns in Hp.
  injection Hp as <-.
  destruct (keys_from_result _ _ Hin) as (l & Hl & Hd & Hn).
  split; [|split].
  - intros ->. now apply (proj2 (well_keyed_result (file_lines content))).
  - destruct (directive_has_name l Hd) as (b & a & _ & _ & Ha).
    rewrite Ha in Hn. injection Hn as <-. apply strip_trimmed.
  - now exists l.
Qed.

Lemma keys_are_directive_names_witness :
  py "q1" <> [] /\ trimmed (py "q1") /\
  exists l,
    In l (file_lines (text ["  -- name:   q1  "; "SELECT 1;"]%string)) /\
    is_directive l = true /\ directive_name l = Some (py "q1").
Proof.
  apply (keys_are_directive_names
           (text ["  -- name:   q1  "; "SELECT 1;"]%string)
           [(py "q1", py "SELECT 1;")] (py "q1")).
  - vm_compute. reflexivity.
  - vm_compute. now left.
Defined.

(** X4: every body of the returned mapping is trimmed: it neither begins
    nor ends with a whitespace character, and stripping it again changes
    nothing. *)
Theorem bodies_are_trimmed
  (content : pystr) (q : pydict) (name body : pystr) :
  parse_named_queries content = Ok q -> In (name, body) q ->
  trimmed body /\ strip body = body.
Proof.
  intros Hp Hin. rewrite parse_named_queries_returns in Hp.
  injection Hp as <-.
  destruct (from_content_result _ _ Hin) as (buf & _ & Hb).
  simpl in Hb. subst body. unfold body_of.
  split; [apply strip_trimmed|apply strip_idempotent].
Qed.

Lemma bodies_are_trimmed_witness :
  trimmed (py "SELECT 1;") /\ strip (py "SELECT 1;") = py "SELECT 1;".
Proof.
  apply (bodies_are_trimmed
           (text ["-- name: q1"; ""; "   SELECT 1;   "; ""]%string)
           [(py "q1", py "SELECT 1;")] (py "q1") (py "SELECT 1;")).
  - vm_compute. reflexivity.
  - now left.
Defined.

(** X5: the returned mapping has at most as many entries as the file has
    directive lines. *)
Theorem entries_bounded_by_directives (content : pystr) :
  exists q,
    parse_named_queries content = Ok q /\
    (length q <= directive_count (file_lines content))%nat.
Proof.
  eexists. split; [apply parse_named_queries_returns|].
  rewrite finish_flush.
  pose proof (length_flush (exec initial (file_lines content))) as H1.
  pose proof (names_in_play_exec (file_lines content) initial) as H2.
  unfold names_in_play at 2 in H2. simpl in H2. lia.
Qed.

Section NewlineFacts.

Lemma universal_newlines_crlf (l rest : pystr) :
  ~ In CR l ->
  universal_newlines (l ++ [CR; LF] ++ rest)
  = l ++ [LF] ++ universal_newlines rest.
Proof.
  induction l as [|c l IH]; intros H.
  - reflexivity.
  - simpl in H. simpl app.
    assert (Hc : (c =? CR) = false) by (apply N.eqb_neq; intuition).
    cbn [universal_newlines]. rewrite Hc. f_equal. apply IH. tauto.
Qed.

Lemma universal_newlines_lf (l rest : pystr) :
  ~ In CR l ->
  universal_newlines (l ++ [LF] ++ rest)
  = l ++ [LF] ++ universal_newlines rest.
Proof.
  induction l as [|c l IH]; intros H.
  - reflexivity.
  - simpl in H. simpl app.
    assert (Hc : (c =? CR) = false) by (apply N.eqb_neq; intuition).
    cbn [universal_newlines]. rewrite Hc. f_equal. apply IH. tauto.
Qed.

Lemma universal_newlines_texts (ls : list pystr) :
  Forall no_newline ls ->
  universal_newlines (crlf_text ls) = lf_text ls /\
  universal_newlines (lf_text ls) = lf_text ls.
Proof.
  unfold crlf_text, lf_text.
  induction 1 as [|l ls [Hcr _] _ [IH1 IH2]]; simpl; [now split|].
  rewrite <- !app_assoc.
  rewrite (universal_newlines_crlf l _ Hcr), (universal_newlines_lf l _ Hcr).
  now rewrite IH1, IH2.
Qed.

Lemma lines_from_line (l rest cur : pystr) :
  ~ In LF l ->
  lines_from cur (l ++ [LF] ++ rest) = (cur ++ l ++ [LF]) :: lines_from [] rest.
Proof.
  revert cur. induction l as [|c l IH]; intros cur H.
  - reflexivity.
  - simpl in H. simpl app.
    assert (Hc : (c =? LF) = false) by (apply N.eqb_neq; intuition).
    cbn [lines_from]. rewrite Hc, IH by tauto.
    now rewrite <- app_assoc.
Qed.

Lemma lines_from_lf_text (ls : list pystr) :
  Forall no_newline ls ->
  lines_from [] (lf_text ls) = map (fun l => l ++ [LF]) ls.
Proof.
  unfold lf_text. induction 1 as [|l ls [_ Hlf] _ IH]; simpl; [reflexivity|].
  rewrite <- app_assoc, (lines_from_line l _ [] Hlf), IH. reflexivity.
Qed.

End NewlineFacts.

(** X6: line endings do not matter: a file whose lines end with a carriage
    return and a line feed is read as the same lines, and parsed to the
    same mapping, as the file whose lines end with a line feed alone. *)
Theorem line_endings_do_not_matter (ls : list pystr) :
  Forall no_newline ls ->
  file_lines (crlf_text ls) = map (fun l => l ++ [LF]) ls /\
  file_lines (lf_text ls) = map (fun l => l ++ [LF]) ls /\
  parse_named_queries (crlf_text ls) = parse_named_queries (lf_text ls).
Proof.
  intros H. destruct (universal_newlines_texts ls H) as [H1 H2].
  unfold parse_named_queries, file_lines. rewrite H1, H2.
  now rewrite (lines_from_lf_text ls H).
Qed.

Lemma line_endings_do_not_matter_witness :
  parse_named_queries
    (py "-- name: q1" ++ [CR; LF] ++ py "SELECT 1;" ++ [CR; LF])
  = parse_named_queries (text ["-- name: q1"; "SELECT 1;"]%string).
Proof.
  apply (proj2 (proj2 (line_endings_do_not_matter
                         [py "-- name: q1"; py "SELECT 1;"]
                         ltac:(repeat constructor; vm_compute;
                               intuition discriminate)))).
Defined.

Section PaddingFacts.

Lemma lstrip_pad_left (w s : pystr) :
  whitespace w -> lstrip (w ++ s) = lstrip s.
Proof.
  unfold whitespace. induction w as [|c w IH]; simpl; [reflexivity|].
  intros H. apply andb_true_iff in H as [Hc Hw]. rewrite Hc. now apply IH.
Qed.

Lemma rstrip_pad_right (s w : pystr) :
  whitespace w -> rstrip (s ++ w) = rstrip s.
Proof.
  intros H. unfold rstrip. rewrite rev_app_distr, lstrip_pad_left;
    [reflexivity|]. unfold whitespace. now rewrite forallb_rev.
Qed.

Lemma lstrip_app_kept (s x : pystr) :
  lstrip s <> [] -> lstrip (s ++ x) = lstrip s ++ x.
Proof.
  induction s as [|c s IH]; simpl; [congruence|].
  destruct (isspace c); [exact IH|reflexivity].
Qed.

Lemma strip_pad (w1 s w2 : pystr) :
  whitespace w1 -> whitespace w2 -> strip (w1 ++ s ++ w2) = strip s.
Proof.
  intros H1 H2. unfold strip. rewrite (lstrip_pad_left w1 _ H1).
  destruct (lstrip s) as [|c t] eqn:E.
  - assert (Hs : lstrip (s ++ w2) = []).
    { apply lstrip_nil. rewrite forallb_app.
      apply lstrip_nil in E. now rewrite E. }
    now rewrite Hs.
  - rewrite lstrip_app_kept by congruence. rewrite E.
    now apply rstrip_pad_right.
Qed.

Lemma split1_at (sep : char) (before after : pystr) :
  ~ In sep before ->
  split1 sep (before ++ sep :: after) = [before; after].
Proof.
  induction before as [|c b IH]; simpl; intros H.
  - now rewrite N.eqb_refl.
  - assert (Hc : (c =? sep) = false) by (apply N.eqb_neq; intuition).
    rewrite Hc, IH by tauto. reflexivity.
Qed.

Lemma whitespace_no_colon (w : pystr) : whitespace w -> ~ In colon w.
Proof.
  unfold whitespace. intros H Hin.
  apply (proj1 (forallb_forall _ _) H) in Hin. discriminate.
Qed.

Lemma directive_name_pad (w1 l w2 : pystr) :
  whitespace w1 -> whitespace w2 -> is_directive l = true ->
  directive_name (w1 ++ l ++ w2) = directive_name l.
Proof.
  intros H1 H2 Hd.
  destruct (directive_has_name l Hd) as (b & a & Hl & Hn & Ha).
  rewrite Ha. subst l. unfold directive_name.
  replace (w1 ++ (b ++ colon :: a) ++ w2)
    with ((w1 ++ b) ++ colon :: (a ++ w2))
    by (now rewrite <- !app_assoc).
  rewrite split1_at.
  - simpl. f_equal. apply (strip_pad [] a w2); [reflexivity|exact H2].
  - intros Hin. apply in_app_or in Hin as [Hin|Hin]; [|contradiction].
    now apply (whitespace_no_colon w1 H1).
Qed.

End PaddingFacts.

(** X7: whitespace around a line does not change whether it is a
    directive, and a directive line that is indented or followed by
    whitespace is handled exactly as the bare line: same name, same
    flush. *)
Theorem directive_padding_is_ignored (w1 l w2 : pystr) :
  whitespace w1 -> whitespace w2 ->
  is_directive (w1 ++ l ++ w2) = is_directive l /\
  (is_directive l = true ->
   forall st, step st (w1 ++ l ++ w2) = step st l).
Proof.
  intros H1 H2.
  assert (Hd : is_directive (w1 ++ l ++ w2) = is_directive l).
  { unfold is_directive. now rewrite strip_pad. }
  split; [exact Hd|].
  intros Hl st. unfold step. rewrite Hd, Hl.
  now rewrite directive_name_pad.
Qed.

Lemma directive_padding_is_ignored_witness :
  step initial ([9; 32] ++ py "-- name: q1" ++ [32; 13; 10])
  = step initial (py "-- name: q1").
Proof.
  apply (proj2 (directive_padding_is_ignored
                  [9; 32] (py "-- name: q1") [32; 13; 10]
                  eq_refl eq_refl) eq_refl).
Defined.

(** X8: appending a block to a file is one assignment on the result: when
    nothing is carried over in the buffer once the appended directive has
    been read, the mapping of the longer file is the mapping of the
    shorter one with the new name set to the trimmed lines of the block,
    in place if the name was stored before and last otherwise. *)
Theorem appending_block_is_assignment
  (lines body : list pystr) (d n : pystr) (st : locals) :
  run_lines initial (lines ++ [d]) = Ok st -> buffer st = [] ->
  names n d -> n <> [] -> body <> [] -> Forall content_line body ->
  exists q,
    parse_lines lines = Ok q /\
    parse_lines (lines ++ d :: body)
    = Ok (dict_set n (strip (join_empty body)) q).
Proof.
  intros Hr Hb Hn Hne Hbody Hc.
  destruct (after_directive lines d n st Hr Hn) as [Hst Hcur].
  exists (finish (exec initial lines)).
  split; [apply parse_lines_exec|].
  rewrite parse_lines_exec. f_equal.
  rewrite split_after, exec_app, <- Hst, (exec_content body st Hc).
  rewrite (finish_stores _ n) by (simpl; try rewrite Hb; auto). simpl.
  rewrite Hb. simpl. f_equal.
  rewrite Hst, exec_app. simpl. rewrite (next_directive _ d n Hn). simpl.
  symmetry. apply finish_flush.
Qed.

Lemma appending_block_is_assignment_witness :
  exists q,
    parse_lines [line "-- name: a"; line "SELECT 1;"; line "-- name: b";
                 line "SELECT 2;"] = Ok q /\
    parse_lines ([line "-- name: a"; line "SELECT 1;"; line "-- name: b";
                  line "SELECT 2;"]
                 ++ line "-- name: a" :: [line "SELECT 3;"])
    = Ok (dict_set (py "a") (strip (join_empty [line "SELECT 3;"])) q).
Proof.
  apply (appending_block_is_assignment
           [line "-- name: a"; line "SELECT 1;"; line "-- name: b";
            line "SELECT 2;"]
           [line "SELECT 3;"] (line "-- name: a") (py "a")
           (exec initial
              [line "-- name: a"; line "SELECT 1;"; line "-- name: b";
               line "SELECT 2;"; line "-- name: a"])).
  - vm_compute. reflexivity.
  - vm_compute. reflexivity.
  - split; vm_compute; reflexivity.
  - vm_compute. discriminate.
  - discriminate.
  - vm_compute. repeat constructor.
Defined.

(* ================================================================== *)
(** ** Further properties of [run_queries] *)

Section RunnerTraces.

Context {Row EngineError : Type}.
Variable execute : pystr -> result EngineError (list Row).

Lemma skipped_other (sel name : pystr) :
  sel <> [] -> name <> sel -> skipped (Some sel) name = true.
Proof.
  intros Hs Hn. unfold skipped. destruct sel; [contradiction|]. simpl.
  apply str_eqb_neq in Hn. now rewrite Hn.
Qed.

Lemma skipped_same (sel : pystr) : skipped (Some sel) sel = false.
Proof.
  unfold skipped. rewrite str_eqb_refl. simpl. apply andb_false_r.
Qed.

(** A selected name that is not a key makes the loop skip everything. *)
Lemma run_loop_absent (sel : pystr) (explain : bool) (items : pydict) :
  sel <> [] -> ~ In sel (keys items) ->
  run_loop execute (Some sel) explain items = ([], Ok tt).
Proof.
  intros Hs. induction items as [|[name sql] items IH]; intros Hn;
    [reflexivity|].
  simpl in Hn. cbn [run_loop].
  rewrite skipped_other by (auto; intros ->; tauto).
  apply IH. tauto.
Qed.

(** A selected name that is a key makes the loop run that entry alone. *)
Lemma run_loop_selected (sel body : pystr) (explain : bool)
  (rows : list Row) (items : pydict) :
  sel <> [] -> NoDup (keys items) -> lookup sel items = Some body ->
  execute (plan_prefix explain ++ body) = Ok rows ->
  run_loop execute (Some sel) explain items
  = ([PrintHeading (heading sel); Execute (plan_prefix explain ++ body)]
     ++ (if explain then [PrintPlan rows] else map PrintRow rows),
     Ok tt).
Proof.
  intros Hs. induction items as [|[name sql] items IH];
    intros Hnd Hl Hx; [discriminate|].
  simpl in Hl, Hnd. inversion Hnd as [|? ? Hnotin Hnd']; subst.
  cbn [run_loop]. destruct (str_eqb name sel) eqn:E.
  - apply str_eqb_eq in E. subst name. injection Hl as ->.
    rewrite skipped_same, Hx.
    rewrite (run_loop_absent sel explain items Hs Hnotin).
    now rewrite app_nil_r.
  - apply str_eqb_neq in E. rewrite skipped_other by auto.
    now apply IH.
Qed.

Lemma startswith_prefix (p s : pystr) : startswith p (p ++ s) = true.
Proof.
  induction p as [|c p IH]; simpl; [reflexivity|].
  now rewrite N.eqb_refl.
Qed.

Lemma run_loop_trace (sel : option pystr) (explain : bool)
  (items : pydict) :
  exists done later,
    selected_items sel items = done ++ later /\
    executed (fst (run_loop execute sel explain items))
    = map (statement explain) done /\
    headings (fst (run_loop execute sel explain items))
    = map (fun d => heading (fst d)) done /\
    loop_outcome execute explain done later
      (snd (run_loop execute sel explain items)).
Proof.
  induction items as [|[name sql] items (done & later & Hsel & Hx & Hh & Ho)].
  - exists [], []. simpl. repeat split; constructor.
  - cbn [run_loop]. unfold selected_items in *. cbn [filter fst].
    destruct (skipped sel name) eqn:Hs; cbn [negb].
    + now exists done, later.
    + destruct (execute (plan_prefix explain ++ sql)) as [rows|e] eqn:Hq.
      * destruct (run_loop execute sel explain items) as [evs outcome].
        cbn [fst snd] in *.
        exists ((name, sql) :: done), later.
        destruct (printed_rows_silent explain rows) as [P1 P2].
        repeat split.
        -- now rewrite Hsel.
        -- change (executed ([PrintHeading (heading name);
                              Execute (plan_prefix explain ++ sql)]
                             ++ _ ++ evs))
             with ((plan_prefix explain ++ sql)
                   :: executed ((if explain then [PrintPlan rows]
                                 else map PrintRow rows) ++ evs)).
           now rewrite executed_app, P1, Hx.
        -- change (headings ([PrintHeading (heading name);
                              Execute (plan_prefix explain ++ sql)]
                             ++ _ ++ evs))
             with (heading name
                   :: headings ((if explain then [PrintPlan rows]
                                 else map PrintRow rows) ++ evs)).
           now rewrite headings_app, P2, Hh.
        -- assert (Ha : answered execute explain (name, sql))
             by (now exists rows).
           destruct outcome as [u|f]; simpl in *.
           ++ destruct Ho as [-> Hall]. split; [reflexivity|].
              now constructor.
           ++ destruct Ho as (before & d & e & -> & Hall & He & ->).
              exists ((name, sql) :: before), d, e.
              repeat split; auto.
      * exists [(name, sql)], (filter (fun e0 => negb (skipped sel (fst e0)))
                                 items).
        cbn [fst snd]. repeat split.
        exists [], (name, sql), e. repeat split; auto.
Qed.

Lemma run_loop_no_bracket (sel : option pystr) (explain : bool)
  (items : pydict) :
  forallb (fun e => negb (is_bracket e))
    (fst (run_loop execute sel explain items)) = true.
Proof.
  induction items as [|[name sql] items IH]; [reflexivity|].
  cbn [run_loop]. destruct (skipped sel name); [exact IH|].
  destruct (execute (plan_prefix explain ++ sql)) as [rows|e];
    [|reflexivity].
  destruct (run_loop execute sel explain items) as [evs outcome].
  cbn [fst] in *. simpl. rewrite forallb_app, IH, andb_true_r.
  destruct explain; [reflexivity|].
  induction rows as [|r rows IHr]; simpl; auto.
Qed.

Lemma selected_items_none (q : pydict) : selected_items None q = q.
Proof.
  unfold selected_items. induction q as [|e q IH]; [reflexivity|].
  cbn [filter skipped negb]. f_equal. exact IH.
Qed.

Lemma filter_no_bracket (evs : list (event Row)) :
  forallb (fun e => negb (is_bracket e)) evs = true ->
  filter (fun e => negb (is_bracket e)) (Connect :: evs ++ [Close]) = evs.
Proof.
  intros H. cbn [filter is_bracket negb]. rewrite filter_app. simpl.
  rewrite app_nil_r. induction evs as [|e evs IH]; [reflexivity|].
  simpl in *. apply andb_true_iff in H as [He Hr]. rewrite He.
  f_equal. now apply IH.
Qed.

(** The events of the loop are those of the entries it reaches, one
    entry after the other. *)
Lemma run_loop_events (sel : option pystr) (explain : bool)
  (items : pydict) :
  exists done later,
    selected_items sel items = done ++ later /\
    fst (run_loop execute sel explain items)
    = flat_map (entry_events execute explain) done /\
    loop_outcome execute explain done later
      (snd (run_loop execute sel explain items)).
Proof.
  induction items as [|[name sql] items (done & later & Hsel & Hev & Ho)].
  - exists [], []. simpl. repeat split; constructor.
  - cbn [run_loop]. unfold selected_items in *. cbn [filter fst].
    destruct (skipped sel name) eqn:Hs; cbn [negb].
    + now exists done, later.
    + destruct (execute (plan_prefix explain ++ sql)) as [rows|e] eqn:Hq.
      * destruct (run_loop execute sel explain items) as [evs outcome].
        cbn [fst snd] in *.
        exists ((name, sql) :: done), later.
        split; [now rewrite Hsel|]. split.
        -- cbn [flat_map]. unfold entry_events at 1, statement.
           cbn [fst snd]. rewrite Hq, <- Hev. unfold printed.
           now rewrite <- !app_assoc.
        -- assert (Ha : answered execute explain (name, sql))
             by (now exists rows).
           destruct outcome as [u|f]; simpl in *.
           ++ destruct Ho as [-> Hall]. split; [reflexivity|].
              now constructor.
           ++ destruct Ho as (before & d & e & -> & Hall & He & ->).
              exists ((name, sql) :: before), d, e.
              repeat split; auto.
      * exists [(name, sql)], (filter (fun e0 => negb (skipped sel (fst e0)))
                                 items).
        cbn [fst snd]. split; [reflexivity|]. split.
        -- cbn [flat_map]. unfold entry_events, statement. cbn [fst snd].
           rewrite Hq. now rewrite !app_nil_r.
        -- exists [], (name, sql), e. repeat split; auto.
Qed.

End RunnerTraces.




(** X9: selecting a name that is a key of the parsed mapping runs that
    query alone: the connection is opened, the heading of the name is
    printed, the stored body is executed (behind the plan prefix when a
    plan is asked for), its answer is printed, and the connection is
    closed. *)
Theorem selected_query_runs_alone :
  forall (Row EngineError : Type)
         (execute : pystr -> result EngineError (list Row))
         (content selected body : pystr) (explain : bool)
         (q : pydict) (rows : list Row),
    parse_named_queries content = Ok q ->
    selected <> [] -> lookup selected q = Some body ->
    execute (plan_prefix explain ++ body) = Ok rows ->
    run_queries execute content (Some selected) explain
    = (Connect
       :: ([PrintHeading (heading selected);
            Execute (plan_prefix explain ++ body)]
           ++ (if explain then [PrintPlan rows] else map PrintRow rows))
       ++ [Close],
       Ok tt).
Proof.
  intros Row EngineError execute content selected body explain q rows
         Hp Hs Hl Hx.
  unfold run_queries. rewrite Hp. unfold unknown, mem. rewrite Hl.
  rewrite andb_false_r.
  rewrite (run_loop_selected execute selected body explain rows q);
    auto.
  rewrite parse_named_queries_returns in Hp. injection Hp as <-.
  apply well_keyed_result.
Qed.

Lemma selected_query_runs_alone_witness :
  run_queries (Row := unit) (EngineError := unit) (fun _ => Ok [tt; tt])
    (text ["-- name: q1"; "SELECT 1;"; "-- name: q2"; "SELECT 2;";
           "-- name: q3"; "SELECT 3;"]%string)
    (Some (py "q2")) true
  = ([Connect; PrintHeading ([LF] ++ py "-- q2 --");
      Execute (py "EXPLAIN ANALYZE SELECT 2;"); PrintPlan [tt; tt]; Close],
     Ok tt).
Proof.
  exact (selected_query_runs_alone unit unit (fun _ => Ok [tt; tt])
           (text ["-- name: q1"; "SELECT 1;"; "-- name: q2"; "SELECT 2;";
                  "-- name: q3"; "SELECT 3;"]%string)
           (py "q2") (py "SELECT 2;") true
           [(py "q1", py "SELECT 1;"); (py "q2", py "SELECT 2;");
            (py "q3", py "SELECT 3;")]
           [tt; tt]
           ltac:(vm_compute; reflexivity)
           ltac:(vm_compute; discriminate)
           ltac:(vm_compute; reflexivity)
           eq_refl).
Defined.


(** X12: between the opening and the closing of the connection the
    events are exactly those of the entries reached, one entry after the
    other: the heading, the statement sent to the engine and, when the
    engine answers, the answer printed as one plan with [explain] and one
    row at a time, in the order of the answer, without it. *)
Theorem answers_are_printed_in_the_mode :
  forall (Row EngineError : Type)
         (execute : pystr -> result EngineError (list Row))
         (content : pystr) (selected : option pystr) (explain : bool),
  exists q done later,
    parse_named_queries content = Ok q /\
    filter (fun e => negb (is_bracket e))
      (fst (run_queries execute content selected explain))
    = flat_map (entry_events execute explain) done /\
    ((unknown selected q = true /\ done = []) \/
     (unknown selected q = false /\
      selected_items selected q = done ++ later /\
      loop_outcome execute explain done later
        (snd (run_queries execute content selected explain)))).
Proof.
  intros Row EngineError execute content selected explain.
  unfold run_queries. rewrite parse_named_queries_returns.
  set (q := finish (exec initial (file_lines content))).
  destruct (unknown selected q) eqn:Hu.
  - exists q, [], []. split; [reflexivity|]. split; [reflexivity|].
    left. now split.
  - pose proof (run_loop_no_bracket execute selected explain q) as Hb.
    destruct (run_loop_events execute selected explain q)
      as (done & later & Hsel & Hev & Ho).
    destruct (run_loop execute selected explain q) as [evs outcome].
    cbn [fst snd] in *. exists q, done, later.
    split; [reflexivity|]. split.
    + rewrite (filter_no_bracket evs Hb). exact Hev.
    + right. repeat split; auto.
Qed.

(* ================================================================== *)
(** ** Further properties of the customer rollups *)

Section GroupSums.

(** Sums of a weight over the groups add up to the sum over all rows, for
    any commutative monoid of weights. *)
Variable A : Type.
Variable add : A -> A -> A.
Variable zero : A.
Hypothesis add_assoc : forall x y z, add x (add y z) = add (add x y) z.
Hypothesis add_comm : forall x y, add x y = add y x.
Hypothesis add_zero : forall x, add zero x = x.
Variable weight : fact_order -> A.

Lemma total_zero (ids : list Z) :
  fold_right add zero (map (fun _ => zero) ids) = zero.
Proof.
  induction ids as [|i ids IH]; simpl; [reflexivity|].
  now rewrite IH, add_zero.
Qed.

Lemma total_pointwise (f g : Z -> A) (ids : list Z) :
  fold_right add zero (map (fun i => add (f i) (g i)) ids)
  = add (fold_right add zero (map f ids)) (fold_right add zero (map g ids)).
Proof.
  induction ids as [|i ids IH]; simpl.
  - now rewrite add_zero.
  - rewrite IH. rewrite <- !add_assoc. f_equal.
    rewrite !add_assoc. f_equal. apply add_comm.
Qed.

Lemma total_indicator_absent (c : Z) (x : A) (ids : list Z) :
  ~ In c ids ->
  fold_right add zero (map (fun i => if Z.eqb c i then x else zero) ids)
  = zero.
Proof.
  induction ids as [|i ids IH]; simpl; [reflexivity|].
  intros H. destruct (Z.eqb_spec c i); [subst; tauto|].
  rewrite add_zero. apply IH. tauto.
Qed.

Lemma total_indicator (c : Z) (x : A) (ids : list Z) :
  NoDup ids -> In c ids ->
  fold_right add zero (map (fun i => if Z.eqb c i then x else zero) ids)
  = x.
Proof.
  induction 1 as [|i ids Hn Hd IH]; simpl; [tauto|].
  intros [->|Hin].
  - rewrite Z.eqb_refl.
    rewrite total_indicator_absent by exact Hn.
    now rewrite add_comm, add_zero.
  - destruct (Z.eqb_spec c i); [subst; tauto|].
    rewrite add_zero. now apply IH.
Qed.

Lemma groups_add_up (ids : list Z) (rows : list fact_order) :
  NoDup ids -> (forall r, In r rows -> In (customer_id r) ids) ->
  fold_right add zero
    (map (fun i => fold_right add zero (map weight (group_of i rows))) ids)
  = fold_right add zero (map weight rows).
Proof.
  intros Hnd. induction rows as [|r rows IH]; intros Hin.
  - simpl. apply total_zero.
  - rewrite (map_ext _ (fun i =>
               add (if Z.eqb (customer_id r) i then weight r else zero)
                   (fold_right add zero (map weight (group_of i rows))))).
    + rewrite total_pointwise, total_indicator, IH; auto.
      * intros r' Hr'. apply Hin. now right.
      * apply Hin. now left.
    + intros i. unfold group_of. simpl.
      destruct (Z.eqb (customer_id r) i); simpl; [reflexivity|].
      now rewrite add_zero.
Qed.

Lemma total_permutation (l l' : list A) :
  Permutation l l' -> fold_right add zero l = fold_right add zero l'.
Proof.
  induction 1; simpl; auto.
  - now f_equal.
  - rewrite !add_assoc. f_equal. apply add_comm.
  - congruence.
Qed.

End GroupSums.

Section RollupRows.

Lemma row_number_counts (l : list group_aggregate) (k : N) :
  map order_count (row_number k l) = map agg_order_count l /\
  map units (row_number k l) = map agg_units l.
Proof.
  revert k. induction l as [|a l IH]; intros k; simpl; [now split|].
  destruct (IH (k + 1)) as [H1 H2]. now rewrite H1, H2.
Qed.

Lemma length_as_total (g : list fact_order) :
  N.of_nat (length g) = fold_right N.add 0 (map (fun _ => 1) g).
Proof.
  induction g as [|r g IH]; [reflexivity|].
  cbn [length map fold_right]. rewrite <- IH. lia.
Qed.

Lemma sum_quantity_as_total (g : list fact_order) :
  sum_quantity g = fold_right Z.add 0%Z (map quantity g).
Proof.
  unfold sum_quantity. apply fold_symmetric; intros; lia.
Qed.

Lemma group_ids_cover (rows : list fact_order) :
  NoDup (nodup Z.eq_dec (map customer_id rows)) /\
  forall r, In r rows ->
            In (customer_id r) (nodup Z.eq_dec (map customer_id rows)).
Proof.
  split; [apply NoDup_nodup|].
  intros r Hr. apply nodup_In. now apply in_map.
Qed.

(** A rollup row is the aggregate of a customer who has an order. *)
Lemma rollup_row_origin (rows : list fact_order) (r : customer_rollup) :
  In r (customer_rollups rows) ->
  exists id o,
    In o rows /\ customer_id o = id /\
    r = with_rank (aggregate id rows) (revenue_rank r).
Proof.
  unfold customer_rollups.
  assert (Hgen : forall l k,
             In r (row_number k l) ->
             exists a, In a l /\ r = with_rank a (revenue_rank r)).
  { induction l as [|a l IH]; intros k; simpl; [tauto|].
    intros [<-|H]; [exists a; now split; [left|]|].
    destruct (IH _ H) as (b & Hb & Hr). exists b. now split; [right|]. }
  intros H. destruct (Hgen _ _ H) as (a & Ha & Hr).
  apply (Permutation_in _ (order_by_revenue_desc_perm _)) in Ha.
  unfold group_by_customer in Ha. apply in_map_iff in Ha as (id & <- & Hid).
  apply nodup_In, in_map_iff in Hid as (o & Ho & Hin).
  now exists id, o.
Qed.

Lemma fold_min_bounds (l : list Z) (a : Z) :
  (fold_left Z.min l a <= a)%Z /\
  (forall x, In x l -> fold_left Z.min l a <= x)%Z /\
  (fold_left Z.min l a = a \/ In (fold_left Z.min l a) l).
Proof.
  revert a. induction l as [|y l IH]; intros a; simpl.
  - repeat split; [lia|tauto|now left].
  - destruct (IH (Z.min a y)) as (H1 & H2 & H3). repeat split.
    + lia.
    + intros x [<-|Hx]; [lia|now apply H2].
    + destruct H3 as [H3|H3]; [|now right; right].
      rewrite H3. destruct (Z.min_spec a y) as [[_ ->]|[_ ->]];
        [now left|now right; left].
Qed.

Lemma fold_max_bounds (l : list Z) (a : Z) :
  (a <= fold_left Z.max l a)%Z /\
  (forall x, In x l -> x <= fold_left Z.max l a)%Z /\
  (fold_left Z.max l a = a \/ In (fold_left Z.max l a) l).
Proof.
  revert a. induction l as [|y l IH]; intros a; simpl.
  - repeat split; [lia|tauto|now left].
  - destruct (IH (Z.max a y)) as (H1 & H2 & H3). repeat split.
    + lia.
    + intros x [<-|Hx]; [lia|now apply H2].
    + destruct H3 as [H3|H3]; [|now right; right].
      rewrite H3. destruct (Z.max_spec a y) as [[_ ->]|[_ ->]];
        [now right; left|now left].
Qed.

Lemma min_ts_spec (g : list fact_order) :
  g <> [] ->
  (forall o, In o g -> min_ts g <= order_ts o)%Z /\
  exists o, In o g /\ order_ts o = min_ts g.
Proof.
  destruct g as [|r g]; [congruence|]. intros _. unfold min_ts.
  destruct (fold_min_bounds (map order_ts g) (order_ts r))
    as (H1 & H2 & H3).
  split.
  - intros o [<-|Ho]; [exact H1|]. apply H2. now apply in_map.
  - destruct H3 as [H3|H3].
    + exists r. split; [now left|now rewrite H3].
    + apply in_map_iff in H3 as (o & Ho & Hin).
      exists o. split; [now right|exact Ho].
Qed.

Lemma max_ts_spec (g : list fact_order) :
  g <> [] ->
  (forall o, In o g -> order_ts o <= max_ts g)%Z /\
  exists o, In o g /\ order_ts o = max_ts g.
Proof.
  destruct g as [|r g]; [congruence|]. intros _. unfold max_ts.
  destruct (fold_max_bounds (map order_ts g) (order_ts r))
    as (H1 & H2 & H3).
  split.
  - intros o [<-|Ho]; [exact H1|]. apply H2. now apply in_map.
  - destruct H3 as [H3|H3].
    + exists r. split; [now left|now rewrite H3].
    + apply in_map_iff in H3 as (o & Ho & Hin).
      exists o. split; [now right|exact Ho].
Qed.

Lemma group_of_spec (id : Z) (rows : list fact_order) (o : fact_order) :
  In o (group_of id rows) <-> In o rows /\ customer_id o = id.
Proof.
  unfold group_of. rewrite filter_In. now rewrite Z.eqb_eq.
Qed.

End RollupRows.

(** X13: the rollups reconcile with the fact table: the order counts of
    all customers add up to the number of fact rows, and their units add
    up to the total quantity. *)
Theorem rollup_totals_reconcile (rows : list fact_order) :
  total_order_count (customer_rollups rows) = N.of_nat (length rows) /\
  total_units (customer_rollups rows) = sum_quantity rows.
Proof.
  unfold total_order_count, total_units, customer_rollups.
  destruct (row_number_counts
              (order_by_revenue_desc (group_by_customer rows)) 1)
    as [-> ->].
  destruct (group_ids_cover rows) as [Hnd Hcov].
  split.
  - rewrite (total_permutation N N.add 0 N.add_assoc N.add_comm _
               (map agg_order_count (group_by_customer rows)))
      by (apply Permutation_map, order_by_revenue_desc_perm).
    unfold group_by_customer. rewrite map_map. cbn [aggregate agg_order_count].
    rewrite (map_ext _ (fun i => fold_right N.add 0
                                   (map (fun _ => 1) (group_of i rows))))
      by (intros; apply length_as_total).
    rewrite (groups_add_up N N.add 0 N.add_assoc N.add_comm N.add_0_l
               (fun _ => 1) _ rows Hnd Hcov).
    symmetry. apply length_as_total.
  - rewrite (total_permutation Z Z.add 0%Z Z.add_assoc Z.add_comm _
               (map agg_units (group_by_customer rows)))
      by (apply Permutation_map, order_by_revenue_desc_perm).
    unfold group_by_customer. rewrite map_map. cbn [aggregate agg_units].
    rewrite (map_ext _ (fun i => fold_right Z.add 0%Z
                                   (map quantity (group_of i rows))))
      by (intros; apply sum_quantity_as_total).
    rewrite (groups_add_up Z Z.add 0%Z Z.add_assoc Z.add_comm Z.add_0_l
               quantity _ rows Hnd Hcov).
    symmetry. apply sum_quantity_as_total.
Qed.

(** X14: every rollup row describes a customer with at least one order:
    its first and last order times are the earliest and the latest order
    time of that customer, and each is the time of one of the customer's
    orders. *)
Theorem rollup_row_is_consistent
  (rows : list fact_order) (r : customer_rollup) :
  In r (customer_rollups rows) ->
  (1 <= order_count r) /\
  (first_order_ts r <= last_order_ts r)%Z /\
  (forall o, In o rows -> customer_id o = rollup_customer_id r ->
             (first_order_ts r <= order_ts o <= last_order_ts r)%Z) /\
  (exists o, In o rows /\ customer_id o = rollup_customer_id r /\
             order_ts o = first_order_ts r) /\
  (exists o, In o rows /\ customer_id o = rollup_customer_id r /\
             order_ts o = last_order_ts r).
Proof.
  intros Hin.
  destruct (rollup_row_origin rows r Hin) as (id & o0 & Ho0 & Hid & Hr).
  set (g := group_of id rows).
  assert (Hg0 : In o0 g) by (now apply group_of_spec).
  assert (Hne : g <> []) by (intros E; rewrite E in Hg0; exact Hg0).
  destruct (min_ts_spec g Hne) as (Hmin & omin & Homin & Hmin_at).
  destruct (max_ts_spec g Hne) as (Hmax & omax & Homax & Hmax_at).
  rewrite Hr. unfold with_rank, aggregate. cbn. fold g.
  assert (Hlen : (0 < length g)%nat).
  { destruct g; [congruence|simpl; lia]. }
  split; [lia|]. split.
  - specialize (Hmin _ Hg0). specialize (Hmax _ Hg0). lia.
  - split.
    + intros o Ho Hc. assert (Hg : In o g) by (now apply group_of_spec).
      split; [now apply Hmin|now apply Hmax].
    + split.
      * apply group_of_spec in Homin as [H1 H2]. now exists omin.
      * apply group_of_spec in Homax as [H1 H2]. now exists omax.
Qed.

Lemma rollup_row_is_consistent_witness :
  exists o,
    In o [ {| customer_id := 7; order_ts := 300; quantity := 1;
              gross_revenue := 5 # 1 |};
           {| customer_id := 7; order_ts := 100; quantity := 2;
              gross_revenue := 10 # 1 |} ] /\
    customer_id o = 7%Z /\ order_ts o = 100%Z.
Proof.
  exact (proj1 (proj2 (proj2 (proj2
    (rollup_row_is_consistent
       [ {| customer_id := 7; order_ts := 300; quantity := 1;
            gross_revenue := 5 # 1 |};
         {| customer_id := 7; order_ts := 100; quantity := 2;
            gross_revenue := 10 # 1 |} ]
       {| rollup_customer_id := 7; order_count := 2;
          total_revenue := Qplus (Qplus (0 # 1) (5 # 1)) (10 # 1);
          first_order_ts := 100; last_order_ts := 300;
          avg_ticket := Qdiv (Qplus (Qplus (0 # 1) (5 # 1)) (10 # 1))
                          (inject_Z 2);
          units := 3; revenue_rank := 1 |}
       ltac:(vm_compute; left; reflexivity)))))).
Defined.

Section SortedUnique.

Lemma str_leb_antisym (a b : pystr) :
  str_leb a b = true -> str_leb b a = true -> a = b.
Proof.
  revert b. induction a as [|x a IH]; intros [|y b]; simpl;
    try discriminate; [reflexivity|].
  destruct (N.ltb_spec x y), (N.ltb_spec y x), (N.eqb_spec x y),
    (N.eqb_spec y x); try discriminate; try lia.
  intros H1 H2. subst. f_equal. now apply IH.
Qed.

(** Two ascending arrangements of the same names are equal. *)
Lemma ascending_unique (l l' : list pystr) :
  StronglySorted (fun a b => str_leb a b = true) l ->
  StronglySorted (fun a b => str_leb a b = true) l' ->
  Permutation l l' -> l = l'.
Proof.
  intros Hs. revert l'. induction Hs as [|x l Hs IH Hx]; intros l' Hs' Hp.
  - apply Permutation_nil in Hp. now subst.
  - destruct Hs' as [|y l' Hs' Hy].
    + apply Permutation_sym, Permutation_nil in Hp. discriminate.
    + assert (Exy : x = y).
      { assert (Hxin : In x (y :: l'))
          by (apply (Permutation_in _ Hp); now left).
        assert (Hyin : In y (x :: l))
          by (apply (Permutation_in _ (Permutation_sym Hp)); now left).
        destruct Hxin as [->|Hxin]; [reflexivity|].
        destruct Hyin as [->|Hyin]; [reflexivity|].
        apply str_leb_antisym.
        - exact (proj1 (Forall_forall _ _) Hx y Hyin).
        - exact (proj1 (Forall_forall _ _) Hy x Hxin). }
      subst y. f_equal. apply IH; [exact Hs'|].
      now apply Permutation_cons_inv in Hp.
Qed.

Lemma sorted_permutation_invariant (l l' : list pystr) :
  Permutation l l' -> sorted l = sorted l'.
Proof.
  intros Hp. apply ascending_unique; try apply sorted_ordered.
  rewrite !sorted_perm. exact Hp.
Qed.

End SortedUnique.

(** X15: the exit for an unknown name does not depend on the order in
    which the file declares its queries: two files whose mappings hold
    the same names make [run_queries] exit with the same message. *)
Theorem not_found_message_ignores_file_order :
  forall (Row EngineError : Type)
         (execute : pystr -> result EngineError (list Row))
         (content1 content2 selected : pystr) (explain1 explain2 : bool)
         (q1 q2 : pydict),
    parse_named_queries content1 = Ok q1 ->
    parse_named_queries content2 = Ok q2 ->
    Permutation (keys q1) (keys q2) ->
    selected <> [] -> lookup selected q1 = None ->
    run_queries execute content1 (Some selected) explain1
    = run_queries execute content2 (Some selected) explain2 /\
    run_queries execute content1 (Some selected) explain1
    = ([], Raise (SystemExit (not_found_message selected q1))).
Proof.
  intros Row EngineError execute content1 content2 selected explain1
         explain2 q1 q2 H1 H2 Hp Hs Hl.
  assert (Hl2 : lookup selected q2 = None).
  { apply lookup_none_keys. intros Hin.
    apply (Permutation_in _ (Permutation_sym Hp)) in Hin.
    now apply lookup_none_keys in Hl. }
  unfold run_queries. rewrite H1, H2. unfold unknown, mem.
  rewrite Hl, Hl2. destruct selected; [contradiction|]. cbn.
  unfold not_found_message.
  now rewrite (sorted_permutation_invariant _ _ Hp).
Qed.

Lemma not_found_message_ignores_file_order_witness :
  run_queries (Row := unit) (EngineError := unit) (fun _ => Ok [])
    (text ["-- name: q2"; "SELECT 2;"; "-- name: q1"; "SELECT 1;"]%string)
    (Some (py "q3")) false
  = run_queries (Row := unit) (EngineError := unit) (fun _ => Ok [])
      (text ["-- name: q1"; "SELECT 0;"; "-- name: q2"; "SELECT 5;"]%string)
      (Some (py "q3")) true.
Proof.
  exact (proj1 (not_found_message_ignores_file_order
                  unit unit (fun _ => Ok [])
                  (text ["-- name: q2"; "SELECT 2;"; "-- name: q1";
                         "SELECT 1;"]%string)
                  (text ["-- name: q1"; "SELECT 0;"; "-- name: q2";
                         "SELECT 5;"]%string)
                  (py "q3") false true
                  [(py "q2", py "SELECT 2;"); (py "q1", py "SELECT 1;")]
                  [(py "q1", py "SELECT 0;"); (py "q2", py "SELECT 5;")]
                  ltac:(vm_compute; reflexivity)
                  ltac:(vm_compute; reflexivity)
                  ltac:(apply perm_swap)
                  ltac:(vm_compute; discriminate)
                  ltac:(vm_compute; reflexivity))).
Defined.
